(** * visidata: column aggregators and the cached shell column

    A shallow embedding of [visidata/aggregators.py] and of the cached
    derived column of [visidata/shell.py], with the properties of the
    aggregation core stated and proved over it.

    Conventions of the embedding:
    - a generator is the finite list of the items it yields, in order;
    - a Python call that may raise returns a [result]: [Ok v] for a normal
      return, [Raise e] for an exception (a subclass of [Exception]);
    - Python [int] is [Z]; Python [float] is the binary64 [float] of the
      kernel; [str] is [string];
    - objects compared by identity (the aggregator functions) carry an
      explicit identity field. *)

From Stdlib Require Import ZArith Ascii String Floats.
From stdpp Require Import gmap strings list sorting pretty.


(** ** Exceptions and results *)

(** The exceptions (all subclasses of [Exception]) that the modelled code
    can meet. *)
Inductive exn : Type :=
  | ValueError
  | IndexError
  | TypeError
  | AttributeError
  | OverflowError
  | ZeroDivisionError
  | KeyError (key : string)
  | NameError (name : string)
  | OtherError (msg : string).

Inductive result (A : Type) : Type :=
  | Ok (a : A)
  | Raise (e : exn).
Arguments Ok {A} a.
Arguments Raise {A} e.

(** Sequencing of calls that may raise, with stdpp's [x ← m; k]. *)
Global Instance result_ret : MRet result := λ A a, Ok a.
Global Instance result_bind : MBind result := λ A B k m,
  match m with
  | Ok a => k a
  | Raise e => Raise e
  end.

Definition is_Ok {A} (m : result A) : bool :=
  match m with Ok _ => true | Raise _ => false end.

Global Instance exn_eq_dec : EqDecision exn.
Proof. solve_decision. Defined.

(** ** Columns and the value extractor ([getValueRows], [getValues]) *)

(** What the aggregators use of a [Column]: its name, its typed-value
    accessor (which may raise on a row) and the row key of its sheet. *)
Record Column (Row V Key : Type) : Type := mkColumn {
  name : string;
  getTypedValue : Row → result V;
  rowkey : Row → Key;
}.
Arguments mkColumn {Row V Key} name getTypedValue rowkey.
Arguments name {Row V Key} c.
Arguments getTypedValue {Row V Key} c r.
Arguments rowkey {Row V Key} c r.

Section Extractor.
Context {Row V Key : Type}.

(** The predicate returned by [isNullFunc()]. *)
Variable isNullFunc : V → bool.

(** [getValueRows]: the loop body runs under [try]; a row whose typed
    value raises is passed over, a null value is not yielded. *)
Fixpoint getValueRows (self : Column Row V Key) (rows : list Row)
  : list (V * Row) :=
  match rows with
  | [] => []
  | r :: rows' =>
      match getTypedValue self r with
      | Ok v =>
          if negb (isNullFunc v)
          then (v, r) :: getValueRows self rows'
          else getValueRows self rows'
      | Raise _ => getValueRows self rows'
      end
  end.

(** [getValues]: [for v, r in self.getValueRows(rows): yield v]. *)
Fixpoint values_of (vrs : list (V * Row)) : list V :=
  match vrs with
  | [] => []
  | (v, _) :: vrs' => v :: values_of vrs'
  end.

Definition getValues (self : Column Row V Key) (rows : list Row) : list V :=
  values_of (getValueRows self rows).

(** A row contributes when its typed value is extracted and is not null. *)
Definition extracted (self : Column Row V Key) (r : Row) : bool :=
  match getTypedValue self r with
  | Ok v => negb (isNullFunc v)
  | Raise _ => false
  end.

(** ** Bulk aggregators ([aggregator]) *)

(** What [_func] hands back: the wrapped function's return value, [None],
    or the exception object itself (returned, not raised). *)
Inductive aggr_result (A : Type) : Type :=
  | Returned (a : A)
  | ReturnedNone
  | ReturnedExc (e : exn).
Arguments Returned {A} a.
Arguments ReturnedNone {A}.
Arguments ReturnedExc {A} e.

(** [_func(col, rows)] of [aggregator(name, func, *args)]. *)
Definition aggregator {A Args : Type} (func : list V → Args → result A)
    (args : Args) (col : Column Row V Key) (rows : list Row)
  : aggr_result A :=
  let vals := getValues col rows in
  match func vals args with
  | Ok a => Returned a
  | Raise e =>
      if (length vals =? 0)%nat then ReturnedNone else ReturnedExc e
  end.

(** [sum(1 for v in values)]: [sum] starts from 0 and adds each item. *)
Definition py_sum (xs : list Z) : Z := fold_left Z.add xs 0%Z.

Fixpoint ones (values : list V) : list Z :=
  match values with
  | [] => []
  | _ :: values' => 1%Z :: ones values'
  end.

Definition count_func (values : list V) (_ : unit) : result Z :=
  Ok (py_sum (ones values)).

Definition count := aggregator count_func tt.

(** [list]: the list of the values. *)
Definition list_func (values : list V) (_ : unit) : result (list V) :=
  Ok values.

Definition list_aggr := aggregator list_func tt.

End Extractor.

Arguments Returned {A} a.
Arguments ReturnedNone {A}.
Arguments ReturnedExc {A} e.

(** ** Built-in bulk functions over integer values *)

(** [min(vals)] and [max(vals)]: [ValueError] on an empty sequence. *)
Definition min_func (vals : list Z) (_ : unit) : result Z :=
  match vals with
  | [] => Raise ValueError
  | x :: vals' => Ok (fold_left (λ m v, if (v <? m)%Z then v else m) vals' x)
  end.

Definition max_func (vals : list Z) (_ : unit) : result Z :=
  match vals with
  | [] => Raise ValueError
  | x :: vals' => Ok (fold_left (λ m v, if (v >? m)%Z then v else m) vals' x)
  end.

(** [L[i]] on a Python list: a negative index counts from the end,
    an index out of range raises [IndexError]. *)
Definition getitem {A} (L : list A) (i : Z) : result A :=
  let n := Z.of_nat (length L) in
  let j := if (i <? 0)%Z then (i + n)%Z else i in
  if ((j <? 0) || (n <=? j))%Z then Raise IndexError
  else match L !! Z.to_nat j with
       | Some x => Ok x
       | None => Raise IndexError
       end.

(** [median]: [L = sorted(values); return L[len(L)//2]]. *)
Definition median (values : list Z) (_ : unit) : result Z :=
  let L := merge_sort Z.le values in
  getitem L (Z.of_nat (length L) / 2).

(** [sum(vals)] on [int] values: the additions, from 0 and from the left,
    are exact.  (On [float] values they would round; the properties of
    [sum] below are about [int] values.) *)
Definition sum_func (vals : list Z) (_ : unit) : result Z :=
  Ok (fold_left Z.add vals 0%Z).

(** ** [keymax]: the key of the row with the maximum value *)

Section Keymax.
Context {Row Key : Type}.

(** [==] and [>] between two rows.  [>] raises [TypeError] for row types
    without an ordering (a [dict], say). *)
Variable row_eqb : Row → Row → bool.
Variable row_gt : Row → Row → result bool.

(** [(v1, r1) > (v2, r2)] on tuples whose first item is an [int]: the
    first position where the items differ (by [==]) decides; equal tuples
    are not greater.  On [int]s [==] and [>] never raise and order the
    values totally, which is what the first line relies on; a column of
    other values ([float]s with NaN, say) is not covered. *)
Definition tuple_gt (a b : Z * Row) : result bool :=
  if negb (a.1 =? b.1)%Z then Ok (a.1 >? b.1)%Z
  else if negb (row_eqb a.2 b.2) then row_gt a.2 b.2
  else Ok false.

(** [max(iterable)]: keeps the first item until a later one is greater. *)
Fixpoint max_loop (maxitem : Z * Row) (items : list (Z * Row))
  : result (Z * Row) :=
  match items with
  | [] => Ok maxitem
  | item :: items' =>
      greater ← tuple_gt item maxitem;
      max_loop (if greater : bool then item else maxitem) items'
  end.

Definition py_max (items : list (Z * Row)) : result (Z * Row) :=
  match items with
  | [] => Raise ValueError
  | item :: items' => max_loop item items'
  end.

Variable isNullFunc : Z → bool.

(** [lambda col, rows: col.sheet.rowkey(max(col.getValueRows(rows))[1])] *)
Definition keymax (col : Column Row Z Key) (rows : list Row) : result Key :=
  vr ← py_max (getValueRows isNullFunc col rows);
  Ok (rowkey col vr.2).

End Keymax.

(** ** Order statistics ([_percentile]) *)

(** A Python number: an [int] or a [float]. *)
Inductive num : Type :=
  | PyInt (z : Z)
  | PyFloat (x : float).

(** [float(z)] of an [int]: the nearest binary64 value (ties to even);
    [OverflowError] when [z] is too large. *)
Definition float_of_int (z : Z) : result float :=
  let x := SF2Prim (binary_normalize prec emax z 0 false) in
  if is_infinity x then Raise OverflowError else Ok x.

(** [math.floor], [math.ceil] and [int] on a [float]: a finite float is
    [±m·2^e], so the integer parts are exact computations on [m] and [e]. *)
Definition math_floor (x : float) : result Z :=
  match Prim2SF x with
  | S754_nan => Raise ValueError
  | S754_infinity _ => Raise OverflowError
  | S754_zero _ => Ok 0%Z
  | S754_finite s m e => Ok (Z.shiftl (cond_Zopp s (Zpos m)) e)
  end.

Definition math_ceil (x : float) : result Z :=
  match Prim2SF x with
  | S754_nan => Raise ValueError
  | S754_infinity _ => Raise OverflowError
  | S754_zero _ => Ok 0%Z
  | S754_finite s m e => Ok (- Z.shiftl (cond_Zopp (negb s) (Zpos m)) e)%Z
  end.

Definition int_of_float (x : float) : result Z :=
  match Prim2SF x with
  | S754_nan => Raise ValueError
  | S754_infinity _ => Raise OverflowError
  | S754_zero _ => Ok 0%Z
  | S754_finite s m e => Ok (cond_Zopp s (Z.shiftl (Zpos m) e))
  end.

(** Mixed arithmetic: the [int] operand is converted to [float] first. *)
Definition int_sub_float (c : Z) (k : float) : result float :=
  x ← float_of_int c; Ok (x - k)%float.

Definition float_sub_int (k : float) (f : Z) : result float :=
  x ← float_of_int f; Ok (k - x)%float.

Definition int_mul_float (n : Z) (x : float) : result float :=
  y ← float_of_int n; Ok (y * x)%float.

Definition num_mul_float (v : num) (x : float) : result float :=
  match v with
  | PyInt z => int_mul_float z x
  | PyFloat y => Ok (y * x)%float
  end.

(** [_percentile(N, percent, key)]; [N] is expected sorted. *)
Definition _percentile {A} (N : list A) (percent : float) (key : A → num)
  : result (option num) :=
  match N with
  | [] => Ok None
  | _ :: _ =>
      k ← int_mul_float (Z.of_nat (length N) - 1) percent;
      f ← math_floor k;
      c ← math_ceil k;
      if (f =? c)%Z then
        i ← int_of_float k;
        x ← getitem N i;
        Ok (Some (key x))
      else
        x0 ← getitem N f;
        w0 ← int_sub_float c k;
        d0 ← num_mul_float (key x0) w0;
        x1 ← getitem N c;
        w1 ← float_sub_int k f;
        d1 ← num_mul_float (key x1) w1;
        Ok (Some (PyFloat (d0 + d1)%float))
  end.

(** [round(x)] of a [float] to an [int]: half-way cases go to the even
    neighbour. *)
Definition py_round (x : float) : result Z :=
  match Prim2SF x with
  | S754_nan => Raise ValueError
  | S754_infinity _ => Raise OverflowError
  | S754_zero _ => Ok 0%Z
  | S754_finite s m e =>
      let a :=
        if (0 <=? e)%Z then Z.shiftl (Zpos m) e
        else
          let d := (2 ^ (- e))%Z in
          let q := (Zpos m / d)%Z in
          match (2 * (Zpos m mod d) ?= d)%Z with
          | Lt => q
          | Gt => (q + 1)%Z
          | Eq => if Z.even q then q else (q + 1)%Z
          end in
      Ok (cond_Zopp s a)
  end.

(** [a / b] on two [int]s (true division). *)
Definition truediv (a b : Z) : result float :=
  if (b =? 0)%Z then Raise ZeroDivisionError
  else x ← float_of_int a; y ← float_of_int b; Ok (x / y)%float.

(** ** The aggregator objects and their registry *)

(** The [type] attribute set by [_defaggr]. *)
Inductive aggr_type : Type :=
  | type_None | type_float | type_int | type_vlen | type_anytype.

(** Identity of a function object: the closures made once at import time
    are numbered in creation order; [percentile] is memoised by
    [functools.lru_cache], so a percentage names one object. *)
Inductive ident : Type :=
  | Closure (n : nat)
  | Memoised (pct : Z).

(** An aggregator as the binding code sees it: which object it is, its
    [__name__] and its [type]. *)
Record aggr : Type := mkAggr {
  aggr_ident : ident;
  aggr_name : string;
  type_of : aggr_type;
}.

Global Instance aggr_type_eq_dec : EqDecision aggr_type.
Proof. solve_decision. Defined.
Global Instance ident_eq_dec : EqDecision ident.
Proof. solve_decision. Defined.
Global Instance aggr_eq_dec : EqDecision aggr.
Proof. solve_decision. Defined.

(** [_defaggr(name, type, func)] sets both attributes on [func]. *)
Definition _defaggr (name : string) (type : aggr_type) (func : ident) : aggr :=
  {| aggr_ident := func; aggr_name := name; type_of := type |}.

(** [percentile(pct)]: named ['p%s' % pct]. *)
Definition percentile (pct : Z) : aggr :=
  _defaggr ("p" +:+ pretty pct) type_None (Memoised pct).

(** [quantiles(q)]: [[percentile(round(100*i/q)) for i in range(1, q)]]. *)
Definition quantiles (q : Z) : result (list aggr) :=
  mapM (λ i, x ← truediv (100 * i) q; pct ← py_round x; Ok (percentile pct))
       (seqZ 1 (q - 1)).

(** A value of the registry, and an item of a column's [aggregators] list:
    one function or a list of functions. *)
Inductive regval : Type :=
  | Func (a : aggr)
  | FuncList (l : list aggr).

Global Instance regval_eq_dec : EqDecision regval.
Proof. solve_decision. Defined.

(** The registry filled while the module is imported, in the order of the
    assignments to [aggregators]. *)
Definition register_all : result (gmap string regval) :=
  let r : gmap string regval := ∅ in
  let r := <["min" := Func (_defaggr "min" type_None (Closure 0))]> r in
  let r := <["max" := Func (_defaggr "max" type_None (Closure 1))]> r in
  let r := <["avg" := Func (_defaggr "avg" type_float (Closure 2))]> r in
  let r := <["mean" := Func (_defaggr "mean" type_float (Closure 3))]> r in
  let r := <["median" := Func (_defaggr "median" type_None (Closure 4))]> r in
  let r := <["sum" := Func (_defaggr "sum" type_None (Closure 5))]> r in
  let r := <["distinct" := Func (_defaggr "distinct" type_vlen (Closure 6))]> r in
  let r := <["count" := Func (_defaggr "count" type_int (Closure 7))]> r in
  let r := <["list" := Func (_defaggr "list" type_None (Closure 8))]> r in
  q3 ← quantiles 3;
  let r := <["q3" := FuncList q3]> r in
  q4 ← quantiles 4;
  let r := <["q4" := FuncList q4]> r in
  q5 ← quantiles 5;
  let r := <["q5" := FuncList q5]> r in
  q10 ← quantiles 10;
  let r := <["q10" := FuncList q10]> r in
  Ok (<["keymax" := Func (_defaggr "keymax" type_anytype (Closure 9))]> r).

(** The same registry, with the quantile families evaluated. *)
Definition builtin_aggregators : gmap string regval :=
  list_to_map
    [ ("min", Func (_defaggr "min" type_None (Closure 0)));
      ("max", Func (_defaggr "max" type_None (Closure 1)));
      ("avg", Func (_defaggr "avg" type_float (Closure 2)));
      ("mean", Func (_defaggr "mean" type_float (Closure 3)));
      ("median", Func (_defaggr "median" type_None (Closure 4)));
      ("sum", Func (_defaggr "sum" type_None (Closure 5)));
      ("distinct", Func (_defaggr "distinct" type_vlen (Closure 6)));
      ("count", Func (_defaggr "count" type_int (Closure 7)));
      ("list", Func (_defaggr "list" type_None (Closure 8)));
      ("q3", FuncList (percentile <$> [33; 67]%Z));
      ("q4", FuncList (percentile <$> [25; 50; 75]%Z));
      ("q5", FuncList (percentile <$> [20; 40; 60; 80]%Z));
      ("q10", FuncList (percentile <$> [10; 20; 30; 40; 50; 60; 70; 80; 90]%Z));
      ("keymax", Func (_defaggr "keymax" type_anytype (Closure 9))) ].

(** ** Binding aggregators to columns *)

(** Python's [str.split()] and [' '.join].  Strings are taken as sequences
    of ASCII characters; [is_space] is the white space of [str.split()]
    among them. *)
Definition is_space (c : ascii) : bool :=
  let n := nat_of_ascii c in
  ((9 <=? n) && (n <=? 13) || (28 <=? n) && (n <=? 32))%nat.

(** [split_go word s]: [word] is the word being read, [None] between words. *)
Fixpoint split_go (word : option string) (s : string) : list string :=
  match s with
  | EmptyString =>
      match word with Some w => [w] | None => [] end
  | String c s' =>
      if is_space c then
        match word with
        | Some w => w :: split_go None s'
        | None => split_go None s'
        end
      else
        split_go (Some (default EmptyString word +:+ String c EmptyString)) s'
  end.

Definition split (s : string) : list string := split_go None s.

Fixpoint join (sep : string) (items : list string) : string :=
  match items with
  | [] => EmptyString
  | [x] => x
  | x :: items' => x +:+ sep +:+ join sep items'
  end.

Section Binding.
(** The registry [aggregators]. *)
Variable aggregators : gmap string regval.

(** Columns are objects; [Col] names them.  The store maps a column to
    its [aggregators] attribute; a column without the attribute has no
    entry. *)
Context {Col : Type} `{Countable Col}.

(** [aggr in c.aggregators]: a function object equals only itself, and
    never a list. *)
Definition aggr_in (a : aggr) (attached : list regval) : bool :=
  existsb (λ x, match x with
                | Func b => bool_decide (aggr_ident a = aggr_ident b)
                | FuncList _ => false
                end) attached.

(** The body of [for c in cols]; [aggr] is [None] for an unknown name. *)
Definition attach_one (aggr : option aggr) (store : gmap Col (list regval))
    (c : Col) : gmap Col (list regval) :=
  let store :=
    match store !! c with
    | None => <[c := []]> store
    | Some _ => store
    end in
  match aggr with
  | Some a =>
      let attached := default [] (store !! c) in
      if negb (aggr_in a attached)
      then <[c := attached ++ [Func a]]> store
      else store
  | None => store
  end.

(** [aggrs if isinstance(aggrs, list) else [aggrs]] after
    [aggregators.get(aggrname)]. *)
Definition resolve (aggrname : string) : list (option aggr) :=
  match aggregators !! aggrname with
  | Some (FuncList l) => Some <$> l
  | Some (Func a) => [Some a]
  | None => [None]
  end.

Definition addAggregators (cols : list Col) (aggrnames : list string)
    (store : gmap Col (list regval)) : gmap Col (list regval) :=
  fold_left (λ store aggrname,
    fold_left (λ store aggr,
      fold_left (attach_one aggr) cols store)
      (resolve aggrname) store)
    aggrnames store.

(** The getter of the ['aggregators'] column of [ColumnsSheet]:
    [' '.join(x.__name__ for x in getattr(row, 'aggregators', []))]. *)
Definition __name__ (x : regval) : result string :=
  match x with
  | Func a => Ok (aggr_name a)
  | FuncList _ => Raise AttributeError
  end.

Definition getter (store : gmap Col (list regval)) (row : Col)
  : result string :=
  names ← mapM __name__ (default [] (store !! row));
  Ok (join " " names).

(** Its setter:
    [setattr(row, 'aggregators',
             list(aggregators[k] for k in (val or '').split()))]. *)
Definition lookup_aggregator (k : string) : result regval :=
  match aggregators !! k with
  | Some x => Ok x
  | None => Raise (KeyError k)
  end.

Definition setter (store : gmap Col (list regval)) (row : Col)
    (val : option string) : result (gmap Col (list regval)) :=
  l ← mapM lookup_aggregator (split (default EmptyString val));
  Ok (<[row := l]> store).

(** The list a column holds after one execution of the loop body. *)
Definition attached_after (aggr : option aggr)
    (attached : list regval) : list regval :=
  match aggr with
  | Some a => if aggr_in a attached then attached else attached ++ [Func a]
  | None => attached
  end.

(** The executions of the innermost loop body of [addAggregators], in
    order: one per name, resolved aggregator and column. *)
Definition loop_steps (cols : list Col) (aggrnames : list string)
  : list (option aggr * Col) :=
  aggrnames ≫= λ aggrname,
    resolve aggrname ≫= λ aggr, (λ c, (aggr, c)) <$> cols.

(** The column of a step has the attribute and, when the step carries an
    aggregator, holds it already. *)
Definition settled (store : gmap Col (list regval))
    (step : option aggr * Col) : Prop :=
  ∃ attached, store !! step.2 = Some attached
              ∧ ∀ a, step.1 = Some a → aggr_in a attached = true.

(** A name that survives [split] and [join]: not empty, made of ASCII
    characters that are not white space. *)
Definition word_char (c : ascii) : bool :=
  (nat_of_ascii c <? 128)%nat && negb (is_space c).

Fixpoint no_space (s : string) : bool :=
  match s with
  | EmptyString => true
  | String c s' => word_char c && no_space s'
  end.

Definition is_word (s : string) : bool :=
  match s with
  | EmptyString => false
  | String _ _ => no_space s
  end.

End Binding.

(** ** The shell column ([ColumnShell.calcValue]) *)

Section Shell.
(** [shlex.split], [str(context[name])] for the row at hand, and
    [subprocess.Popen(args, ...).communicate()]. *)
Variable shlex_split : string → result (list string).
Variable context : string → result string.
Variable communicate : list string → result (string * string).

(** The loop over the words of the command: a word starting with [$] is
    replaced by the value of the column it names. *)
Definition substitute (arg : string) : result string :=
  match arg with
  | String "$" colname => context colname
  | _ => Ok arg
  end.

Definition run_command (expr : string) : result (string * string) :=
  words ← shlex_split expr;
  args ← mapM substitute words;
  communicate args.

(** [vd.exceptionCaught(e)] as shell.py has it: [vd] is not among the
    names that the module imports from [visidata], and the module never
    assigns it, so the name is looked up in vain and the call raises
    [NameError] before [exceptionCaught] is reached. *)
Definition vd_exceptionCaught (e : exn) : result unit :=
  Raise (NameError "vd").

(** The body of [calcValue]: the [try] block returns what
    [p.communicate()] returns; after an exception the handler runs, and
    were it to return, the method would return [None]. *)
Definition calcValue (expr : string) : result (option (string * string)) :=
  match run_command expr with
  | Ok out_err => Ok (Some out_err)
  | Raise e => _ ← vd_exceptionCaught e; Ok None
  end.

End Shell.

(** ** The cache of computed values ([asynccache]) *)

Section Engine.
Context {K : Type} `{Countable K}.
Context {Val : Type}.

(** Modelled from the spec: how a computation ends, with a value or with
    the error it raised. *)
Inductive outcome : Type :=
  | Value (v : Val)
  | Error (e : exn).

(** Modelled from the spec: the state of a cache key that is not absent,
    [Pending] or [Resolved] (the decorator [asynccache] is imported from
    the [visidata] package and its definition is not among the sources). *)
Inductive entry : Type :=
  | Pending
  | Resolved (o : outcome).

(** Modelled from the spec: the engine, with the bookkeeping needed to
    state its properties: the keys whose computation was started (one
    item per start), the callers attached to a pending key, and what
    each caller was handed. *)
Record engine : Type := mkEngine {
  cache : gmap K entry;
  started : list K;
  waiters : list (nat * K);
  observed : list (nat * K * outcome);
}.

(** Modelled from the spec: no key has an entry at first. *)
Definition empty_engine : engine :=
  {| cache := ∅; started := []; waiters := []; observed := [] |}.

(** Modelled from the spec: what can happen to the engine.  [Get caller k]
    is a [get] of key [k] arriving; [Finished k o] is the computation of
    [k] ending with [o].  Calls from several threads are an interleaving
    of these events; each event is atomic. *)
Inductive event : Type :=
  | Get (caller : nat) (k : K)
  | Finished (k : K) (o : outcome).

(** Modelled from the spec: the callers of [ws] that wait for [k]. *)
Fixpoint release (k : K) (o : outcome) (ws : list (nat * K))
  : list (nat * K * outcome) :=
  match ws with
  | [] => []
  | (caller, k') :: ws' =>
      if bool_decide (k' = k)
      then (caller, k, o) :: release k o ws'
      else release k o ws'
  end.

(** Modelled from the spec: the callers of [ws] that wait for other keys. *)
Fixpoint still_waiting (k : K) (ws : list (nat * K)) : list (nat * K) :=
  match ws with
  | [] => []
  | (caller, k') :: ws' =>
      if bool_decide (k' = k)
      then still_waiting k ws'
      else (caller, k') :: still_waiting k ws'
  end.

(** Modelled from the spec: one event of the state machine
    [Absent → Pending → Resolved] of section 4.5.
    - [get] on an absent key makes it pending, starts the computation and
      attaches the caller;
    - [get] on a pending key attaches the caller to the same outcome;
    - [get] on a resolved key hands the stored value or error back, with
      no new computation;
    - the end of the computation of a pending key stores its outcome, a
      raised error included, and releases every waiter;
    - [Resolved] is terminal: nothing else changes an entry. *)
Definition step (s : engine) (ev : event) : engine :=
  match ev with
  | Get caller k =>
      match cache s !! k with
      | None =>
          {| cache := <[k := Pending]> (cache s);
             started := k :: started s;
             waiters := (caller, k) :: waiters s;
             observed := observed s |}
      | Some Pending =>
          {| cache := cache s;
             started := started s;
             waiters := (caller, k) :: waiters s;
             observed := observed s |}
      | Some (Resolved o) =>
          {| cache := cache s;
             started := started s;
             waiters := waiters s;
             observed := (caller, k, o) :: observed s |}
      end
  | Finished k o =>
      match cache s !! k with
      | Some Pending =>
          {| cache := <[k := Resolved o]> (cache s);
             started := started s;
             waiters := still_waiting k (waiters s);
             observed := release k o (waiters s) ++ observed s |}
      | _ => s
      end
  end.

(** Modelled from the spec: a history of events from a given state. *)
Definition run (evs : list event) (s : engine) : engine :=
  fold_left step evs s.

(** Modelled from the spec: how many computations of [k] were started. *)
Definition starts (k : K) (s : engine) : nat :=
  length (List.filter (λ k', bool_decide (k' = k)) (started s)).

End Engine.

Arguments outcome Val : clear implicits.
Arguments entry Val : clear implicits.
Arguments engine K {_ _} Val.
Arguments event K Val : clear implicits.

(** ** The other built-in aggregators *)

(** [mean]: [vals = list(vals); if vals: return float(sum(vals))/len(vals)];
    with no value the function falls through and returns [None]. *)
Definition mean (vals : list Z) (_ : unit) : result (option float) :=
  match vals with
  | [] => Ok None
  | _ :: _ =>
      s ← float_of_int (py_sum vals);
      n ← float_of_int (Z.of_nat (length vals));
      Ok (Some (s / n)%float)
  end.

(** [set(vals)], registered as [distinct]. *)
Definition distinct_func (vals : list Z) (_ : unit) : result (gset Z) :=
  Ok (list_to_set vals).

(** The function of [percentile(pct)]:
    [lambda col, rows: _percentile(sorted(col.getValues(rows)), pct/100)].
    It is not wrapped by [aggregator]: what it raises is not caught here. *)
Definition percentile_func {Row Key} (isNullFunc : Z → bool) (pct : Z)
    (col : Column Row Z Key) (rows : list Row) : result (option num) :=
  let N := merge_sort Z.le (getValues isNullFunc col rows) in
  percent ← truediv pct 100;
  _percentile (PyInt <$> N) percent id.

(** The percentages of [quantiles(q)], before [percentile] is applied. *)
Definition quantile_cuts (q : Z) : result (list Z) :=
  mapM (λ i, x ← truediv (100 * i) q; py_round x) (seqZ 1 (q - 1)).

(** The integers of a list increase strictly and lie between the bounds
    (both excluded). *)
Fixpoint increasing_between (lo hi : Z) (l : list Z) : bool :=
  match l with
  | [] => true
  | x :: l' => (lo <? x)%Z && (x <? hi)%Z && increasing_between x hi l'
  end.

Definition quantile_cuts_ok (q : Z) : bool :=
  match quantile_cuts q with
  | Ok cuts =>
      bool_decide (Z.of_nat (length cuts) = (q - 1)%Z)
      && increasing_between 0 100 cuts
  | Raise _ => false
  end.

(** [pct/100] is a number: the division succeeds and gives neither NaN
    nor an infinity. *)
Definition is_number (x : float) : bool :=
  negb (is_nan x) && negb (is_infinity x).

Definition percent_ok (pct : Z) : bool :=
  match truediv pct 100 with
  | Ok percent => is_number percent
  | Raise _ => false
  end.

(** Two checks of a registry: a single function is registered under its
    own [__name__], and the [__name__] of a member of a family is no key;
    no two single functions are the same object. *)
Definition names_are_keys (reg : gmap string regval) : bool :=
  forallb (λ kv : string * regval,
             match kv.2 with
             | Func a => bool_decide (aggr_name a = kv.1)
             | FuncList l =>
                 forallb (λ a, bool_decide (reg !! aggr_name a = None)) l
             end)
          (map_to_list reg).

Definition single_ident (kv : string * regval) : option ident :=
  match kv.2 with
  | Func a => Some (aggr_ident a)
  | FuncList _ => None
  end.

Definition objects_are_distinct (reg : gmap string regval) : bool :=
  bool_decide (NoDup (omap single_ident (map_to_list reg))).

(** [aggname]: ['%s_%s' % (col.name, agg.__name__)]. *)
Definition aggname {Row V Key} (col : Column Row V Key) (agg : aggr) : string :=
  name col +:+ "_" +:+ aggr_name agg.

(** The identities of the function objects of an attached list. *)
Definition idents (attached : list regval) : list ident :=
  omap (λ x, match x with
             | Func a => Some (aggr_ident a)
             | FuncList _ => None
             end) attached.

(** ** Strings: what [split] keeps, and [rstrip] *)

(** The characters of [s] that satisfy [p], in order. *)
Fixpoint string_filter (p : ascii → bool) (s : string) : string :=
  match s with
  | EmptyString => EmptyString
  | String c s' =>
      if p c then String c (string_filter p s') else string_filter p s'
  end.

Fixpoint string_forallb (p : ascii → bool) (s : string) : bool :=
  match s with
  | EmptyString => true
  | String c s' => p c && string_forallb p s'
  end.

(** [s.rstrip()]: a character goes when it is white space and all that
    follows it goes. *)
Fixpoint rstrip (s : string) : string :=
  match s with
  | EmptyString => EmptyString
  | String c s' =>
      match rstrip s' with
      | EmptyString => if is_space c then EmptyString else String c EmptyString
      | r => String c r
      end
  end.

(** [s[n:]] for [n ≥ 0]. *)
Fixpoint string_drop (n : nat) (s : string) : string :=
  match n, s with
  | O, _ => s
  | S n', String _ s' => string_drop n' s'
  | S _, EmptyString => EmptyString
  end.

(** ** The directory sheets ([DirSheet], [FileListSheet]) *)

Section DirSheet.
Context {Path : Type}.

(** What the sheets use of a [Path]: [Path(s)], [p/fn], [str(p)] and
    [p.name]; and of the file system: [os.walk] and [os.listdir]. *)
Variable mkPath : string → Path.
Variable joinpath : Path → string → Path.
Variable path_str : Path → string.
Variable path_name : Path → string.
Variable os_walk : string → list (string * list string * list string).
Variable os_listdir : string → list string.

(** [_walkfiles(p)], over the triples that [os.walk] reports. *)
Fixpoint walk_entries (basepath : string)
    (entries : list (string * list string * list string)) : list Path :=
  match entries with
  | [] => []
  | (folder, subdirs, files) :: entries' =>
      let subfolder := string_drop (String.length basepath + 1) folder in
      if bool_decide (subfolder ∈ ["."; ".."])
      then walk_entries basepath entries'
      else
        let fpath := mkPath folder in
        fpath :: (joinpath fpath <$> files) ++ walk_entries basepath entries'
  end.

Definition _walkfiles (p : Path) : list Path :=
  let basepath := path_str p in
  walk_entries basepath (os_walk basepath).

(** [_listfiles(p)]. *)
Definition _listfiles (p : Path) : list Path :=
  let basepath := path_str p in
  joinpath p <$> os_listdir basepath.

(** The loop of [DirSheet.iterload] over the paths of [f(self.source)]. *)
Fixpoint iterload_loop (hidden_files : bool) (paths : list Path) : list Path :=
  match paths with
  | [] => []
  | p :: paths' =>
      if hidden_files && String.prefix "." (path_name p)
      then iterload_loop hidden_files paths'
      else p :: iterload_loop hidden_files paths'
  end.

(** [DirSheet.iterload], with the options [dir_recurse] and [dir_hidden]. *)
Definition iterload (dir_recurse dir_hidden : bool) (source : Path)
  : list Path :=
  let f := if dir_recurse then _walkfiles else _listfiles in
  iterload_loop dir_hidden (f source).

(** [FileListSheet.iterload], over the lines of [self.source.open_text()]. *)
Fixpoint filelist_iterload (lines : list string) : list Path :=
  match lines with
  | [] => []
  | fn :: lines' => mkPath (rstrip fn) :: filelist_iterload lines'
  end.

End DirSheet.

(** ** A small sheet for the examples *)

(** Rows that are Python lists of integers: [==] and [>] on lists compare
    item by item, and a proper prefix is smaller. *)
Fixpoint list_gtb (a b : list Z) : bool :=
  match a, b with
  | x :: a', y :: b' => if (x =? y)%Z then list_gtb a' b' else (x >? y)%Z
  | _ :: _, [] => true
  | [], _ => false
  end.

Definition list_eqb (a b : list Z) : bool := bool_decide (a = b).

Definition list_gt (a b : list Z) : result bool := Ok (list_gtb a b).

(** Rows without an ordering, such as [dict]s: [>] raises. *)
Definition unordered_gt (a b : list Z) : result bool := Raise TypeError.

(** The column of the first cell; the second cell is the key of the row.
    A row too short for the column makes the accessor raise. *)
Definition first_cell : Column (list Z) Z Z :=
  mkColumn "first" (λ r, getitem r 0) (λ r, default 0%Z (r !! 1%nat)).

(** No integer is null; or the integer 0 is (as [options.null_value]). *)
Definition never_null (v : Z) : bool := false.
Definition zero_is_null (v : Z) : bool := (v =? 0)%Z.

(** The reading of "the first row whose value is the maximum", to compare
    [keymax] with. *)
Definition first_row_with_maximum {Row} (items : list (Z * Row))
  : option Row :=
  match items with
  | [] => None
  | x :: items' =>
      let m := fold_left (λ m a, Z.max m a.1) items' x.1 in
      snd <$> List.find (λ a, (a.1 =? m)%Z) items
  end.

(** Two of the registered aggregators, and a function object of its own
    that also carries the name ["min"]. *)
Definition aggr_min : aggr := _defaggr "min" type_None (Closure 0).
Definition aggr_keymax : aggr := _defaggr "keymax" type_anytype (Closure 9).
Definition other_min : aggr := _defaggr "min" type_None (Closure 42).

(** A column (numbered 1) holding [min] and [keymax], and the same column
    after [addAggregators([c], ['q4'])] on a fresh column. *)
Definition store_min_keymax : gmap positive (list regval) :=
  {[ 1%positive := [Func aggr_min; Func aggr_keymax] ]}.

Definition store_q4 : gmap positive (list regval) :=
  addAggregators builtin_aggregators [1%positive] ["q4"] ∅.

(** The surroundings of a shell column: commands without quotes (where
    [shlex.split] is [str.split]), a row with the one column [file], and
    a process that echoes its arguments. *)
Definition plain_split (expr : string) : result (list string) :=
  Ok (split expr).

Definition one_column (colname : string) : result string :=
  if bool_decide (colname = "file") then Ok "a.txt"
  else Raise (KeyError colname).

Definition echo (args : list string) : result (string * string) :=
  Ok (join " " args, "").

(** A process that cannot be started ([Popen] raises). *)
Definition no_such_program (args : list string)
  : result (string * string) :=
  Raise (OtherError "FileNotFoundError").

(** Paths as strings: [p/fn] puts a slash between, and [p.name] is what
    follows the last slash. *)
Definition slash (p fn : string) : string := p +:+ "/" +:+ fn.

Fixpoint basename_go (acc s : string) : string :=
  match s with
  | EmptyString => acc
  | String c s' =>
      if Ascii.eqb c "/" then basename_go EmptyString s'
      else basename_go (acc +:+ String c EmptyString) s'
  end.

Definition basename (p : string) : string := basename_go EmptyString p.

(** A directory with the files [a] and [.b] and the folder [sub], which
    holds the file [c]. *)
Definition walk_example (top : string)
  : list (string * list string * list string) :=
  [(top, ["sub"], ["a"; ".b"]); (slash top "sub", [], ["c"])].

Definition listdir_example (top : string) : list string :=
  ["a"; ".b"; "sub"].

(** * Properties *)

(** ** The value extractor *)

Section ExtractorFacts.
Context {Row V Key : Type}.
Variable isNullFunc : V → bool.
Implicit Types (self col : Column Row V Key) (rows : list Row).

Local Abbreviation getValueRows := (getValueRows isNullFunc).
Local Abbreviation getValues := (getValues isNullFunc).
Local Abbreviation extracted := (extracted isNullFunc).

Lemma values_of_fst (vrs : list (V * Row)) : values_of vrs = map fst vrs.
Proof. induction vrs as [|[v r] vrs IH]; simpl; congruence. Qed.

Lemma getValueRows_app self rows1 rows2 :
  getValueRows self (rows1 ++ rows2)
  = getValueRows self rows1 ++ getValueRows self rows2.
Proof.
  induction rows1 as [|r rows1 IH]; simpl; [done|].
  destruct (getTypedValue self r) as [v|e]; [|done].
  destruct (isNullFunc v); simpl; congruence.
Qed.

Lemma getValueRows_rows self rows :
  map snd (getValueRows self rows) = List.filter (extracted self) rows.
Proof.
  induction rows as [|r rows IH]; simpl; [done|].
  unfold extracted at 1.
  destruct (getTypedValue self r) as [v|e]; [|done].
  destruct (isNullFunc v); simpl; congruence.
Qed.

Lemma getValueRows_values self rows :
  Forall (λ vr, getTypedValue self vr.2 = Ok vr.1 ∧ isNullFunc vr.1 = false)
         (getValueRows self rows).
Proof.
  induction rows as [|r rows IH]; simpl; [constructor|].
  destruct (getTypedValue self r) as [v|e] eqn:Hv; [|done].
  destruct (isNullFunc v) eqn:Hn; simpl; [done|].
  constructor; [done|done].
Qed.

Lemma filter_sublist (p : Row → bool) rows :
  sublist (List.filter p rows) rows.
Proof.
  induction rows as [|r rows IH]; simpl; [constructor|].
  destruct (p r); by constructor.
Qed.

Lemma getValueRows_filtered self rows :
  getValueRows self (List.filter (extracted self) rows)
  = getValueRows self rows.
Proof.
  induction rows as [|r rows IH]; simpl; [done|].
  unfold extracted at 1.
  destruct (getTypedValue self r) as [v|e] eqn:Hv; [|done].
  destruct (isNullFunc v) eqn:Hn; simpl; [done|].
  rewrite Hv, Hn. simpl. by rewrite IH.
Qed.

(** C10: the pairs yielded by [getValueRows] are the rows with an
    extracted non-null value, in the order of the input and each with
    its own value; [getValues] yields the first components, in the same
    order. *)
Theorem getValueRows_keeps_order self rows :
  map snd (getValueRows self rows) = List.filter (extracted self) rows
  ∧ sublist (map snd (getValueRows self rows)) rows
  ∧ Forall (λ vr, getTypedValue self vr.2 = Ok vr.1
                  ∧ isNullFunc vr.1 = false) (getValueRows self rows)
  ∧ getValues self rows = map fst (getValueRows self rows).
Proof.
  split_and!.
  - apply getValueRows_rows.
  - rewrite getValueRows_rows. apply filter_sublist.
  - apply getValueRows_values.
  - apply values_of_fst.
Qed.

Lemma py_sum_ones_from (values : list V) (acc : Z) :
  fold_left Z.add (ones values) acc = (acc + Z.of_nat (length values))%Z.
Proof.
  revert acc. induction values as [|v values IH]; intros acc; simpl.
  - lia.
  - rewrite IH. lia.
Qed.

Lemma length_getValues self rows :
  length (getValues self rows)
  = length (List.filter (extracted self) rows).
Proof.
  unfold getValues. rewrite values_of_fst, length_map.
  by rewrite <- getValueRows_rows, length_map.
Qed.

(** C7: a row whose typed value raises, or is null, yields nothing and
    stops nothing: the extractor's output is that of the remaining rows,
    and [count] returns the number of rows whose typed value is
    extracted and not null. *)
Theorem count_is_number_of_extracted self rows :
  getValueRows self rows
    = getValueRows self (List.filter (extracted self) rows)
  ∧ count isNullFunc self rows
    = Returned (Z.of_nat (length (List.filter (extracted self) rows))).
Proof.
  split.
  - by rewrite getValueRows_filtered.
  - unfold count, aggregator, count_func, py_sum.
    rewrite py_sum_ones_from, length_getValues. f_equal.
Qed.

(** C6: the wrapper made by [aggregator] returns what the wrapped
    function returns; when the function raises, it returns [None] if
    there was no value and the exception itself otherwise. *)
Theorem aggregator_result {A Args} (func : list V → Args → result A)
    (args : Args) col rows :
  (∀ a, func (getValues col rows) args = Ok a →
        aggregator isNullFunc func args col rows = Returned a)
  ∧ (∀ e, func (getValues col rows) args = Raise e →
          getValues col rows = [] →
          aggregator isNullFunc func args col rows = ReturnedNone)
  ∧ (∀ e, func (getValues col rows) args = Raise e →
          getValues col rows ≠ [] →
          aggregator isNullFunc func args col rows = ReturnedExc e).
Proof.
  unfold aggregator. split_and!.
  - intros a ->. done.
  - intros e -> ->. done.
  - intros e -> Hne. destruct (getValues col rows); [done|done].
Qed.

End ExtractorFacts.

(** ** [keymax] *)

Section KeymaxFacts.
Context {Row Key : Type}.
Variable row_eqb : Row → Row → bool.
Variable row_gt : Row → Row → result bool.
Variable isNullFunc : Z → bool.
Implicit Types (col : Column Row Z Key) (rows : list Row).
Implicit Types (a b cur : Z * Row) (items : list (Z * Row)).

(** Pairs with different values are ordered by the values alone. *)
Lemma tuple_gt_values a b :
  a.1 ≠ b.1 → tuple_gt row_eqb row_gt a b = Ok (a.1 >? b.1)%Z.
Proof.
  intros Hne. unfold tuple_gt.
  destruct (Z.eqb_spec a.1 b.1); [done|done].
Qed.

Local Abbreviation tuple_gt := (tuple_gt row_eqb row_gt).
Local Abbreviation max_loop := (max_loop row_eqb row_gt).
Local Abbreviation py_max := (py_max row_eqb row_gt).

(** While the values stay below [M], so does the running maximum. *)
Lemma max_loop_below (M : Z) items rest cur :
  (cur.1 < M)%Z →
  Forall (λ a, (a.1 < M)%Z) items →
  (∀ a b, a ∈ cur :: items → b ∈ items → is_Ok (tuple_gt b a) = true) →
  ∃ cur', (cur'.1 < M)%Z ∧ max_loop cur (items ++ rest) = max_loop cur' rest.
Proof.
  revert cur. induction items as [|x items IH]; intros cur Hcur Hlt Hok.
  - exists cur. done.
  - inversion Hlt as [|? ? Hx Hitems]; subst. simpl.
    assert (is_Ok (tuple_gt x cur) = true) as Hxc.
    { apply Hok; [left | left]. }
    destruct (tuple_gt x cur) as [greater|e]; [|done]. simpl.
    apply IH; [by destruct greater | done |].
    intros a b Ha Hb. apply Hok.
    + apply elem_of_cons in Ha as [->|Ha].
      * destruct greater; [right; left | left].
      * right; right; done.
    + right; done.
Qed.

(** Once the running maximum has the greatest value, an item replaces it
    only by a tie on the value decided by the rows. *)
Lemma max_loop_stays (M : Z) (r : Row) items :
  Forall (λ b, (b.1 ≤ M)%Z ∧ (b.1 = M → tuple_gt b (M, r) = Ok false)) items →
  max_loop (M, r) items = Ok (M, r).
Proof.
  induction items as [|x items IH]; intros Hall; [done|].
  inversion Hall as [|? ? [Hle Htie] Hitems]; subst. simpl.
  destruct (decide (x.1 = M)) as [Heq|Hne].
  - rewrite (Htie Heq). simpl. by apply IH.
  - rewrite tuple_gt_values by done. simpl.
    destruct (Z.gtb_spec x.1 M); [lia|]. by apply IH.
Qed.

Lemma py_max_first_maximum (M : Z) (r : Row) before after :
  Forall (λ a, (a.1 < M)%Z) before →
  (∀ a b, a ∈ before → b ∈ before → is_Ok (tuple_gt b a) = true) →
  Forall (λ b, (b.1 ≤ M)%Z ∧ (b.1 = M → tuple_gt b (M, r) = Ok false)) after →
  py_max (before ++ (M, r) :: after) = Ok (M, r).
Proof.
  intros Hlt Hok Hafter. destruct before as [|x before]; simpl.
  - by apply max_loop_stays.
  - inversion Hlt as [|? ? Hx Hbefore]; subst.
    destruct (max_loop_below M before ((M, r) :: after) x) as (cur' & Hcur' & ->);
      [done|done| |].
    { intros a b Ha Hb. apply Hok; [done | by right]. }
    simpl. rewrite tuple_gt_values by (simpl; lia). simpl.
    destruct (Z.gtb_spec M cur'.1); [|lia]. by apply max_loop_stays.
Qed.

(** C3, as the code has it, for a column of integer values: when any two
    of the pairs before the first maximum are compared without an
    exception, and every later row with the maximum value, compared with
    the first row that has it, is found not greater without an exception
    (the two rows are equal, or [>] between them returns [False]),
    [keymax] returns the key of that first row. *)
Theorem keymax_first_row_with_maximum col rows (M : Z) (r : Row) before after :
  getValueRows isNullFunc col rows = before ++ (M, r) :: after →
  Forall (λ a, (a.1 < M)%Z) before →
  Forall (λ b, (b.1 ≤ M)%Z) after →
  (∀ a b, a ∈ before → b ∈ before → is_Ok (tuple_gt b a) = true) →
  Forall (λ b, b.1 = M → tuple_gt b (M, r) = Ok false) after →
  keymax row_eqb row_gt isNullFunc col rows = Ok (rowkey col r).
Proof.
  intros Hitems Hbefore Hafter Hok Hties. unfold keymax.
  rewrite Hitems, (py_max_first_maximum M r); [done|done|done|].
  rewrite Forall_forall in Hafter, Hties. apply Forall_forall.
  intros b Hb. split; [by apply Hafter | by apply Hties].
Qed.

End KeymaxFacts.

(** On rows [[1,5], [3,30], [1,20], [3,10]] the first row with the maximum
    value 3 is greater than the later one, and [keymax] returns its key. *)
Lemma keymax_first_row_with_maximum_witness :
  keymax list_eqb list_gt never_null first_cell
         [[1; 5]; [3; 30]; [1; 20]; [3; 10]]%Z = Ok 30%Z.
Proof.
  apply (keymax_first_row_with_maximum list_eqb list_gt never_null first_cell
           [[1; 5]; [3; 30]; [1; 20]; [3; 10]]%Z 3%Z [3; 30]%Z
           [(1, [1; 5])]%Z [(1, [1; 20]); (3, [3; 10])]%Z).
  - reflexivity.
  - repeat constructor.
  - repeat constructor; simpl; lia.
  - intros a b _ _. unfold tuple_gt, list_gt.
    destruct (negb _); [reflexivity|]. destruct (negb _); reflexivity.
  - repeat constructor.
Defined.

(** C3 fails as stated: over values [3, 1, 3] the rows tie on the value, the
    third row is greater than the first, and [keymax] returns the key of
    the third row, not of the first. *)
Lemma keymax_tie_decided_by_rows :
  getValues never_null first_cell [[3; 10]; [1; 20]; [3; 30]]%Z = [3; 1; 3]%Z
  ∧ rowkey first_cell
      <$> first_row_with_maximum
            (getValueRows never_null first_cell
               [[3; 10]; [1; 20]; [3; 30]]%Z) = Some 10%Z
  ∧ keymax list_eqb list_gt never_null first_cell
           [[3; 10]; [1; 20]; [3; 30]]%Z = Ok 30%Z.
Proof. split_and!; reflexivity. Qed.

(** With rows that have no ordering, a tie on the value makes [max], and
    so [keymax], raise. *)
Lemma keymax_raises_on_unordered_tie :
  keymax list_eqb unordered_gt never_null first_cell
         [[3; 10]; [1; 20]; [3; 30]]%Z = Raise TypeError.
Proof. reflexivity. Qed.

(** The three cases of [aggregator] on the example sheet: [max] over the
    values [4, 7]; [max] over no value at all; an index out of range over
    the values [4, 7]. *)
Lemma aggregator_result_witness :
  aggregator zero_is_null max_func tt first_cell [[4]; []; [0]; [7]]%Z
    = Returned 7%Z
  ∧ aggregator zero_is_null max_func tt first_cell [[]; [0]]%Z
    = ReturnedNone
  ∧ aggregator zero_is_null getitem 5%Z first_cell [[4]; [7]]%Z
    = ReturnedExc IndexError.
Proof.
  split_and!.
  - apply (proj1 (aggregator_result zero_is_null max_func tt first_cell
                    [[4]; []; [0]; [7]]%Z)).
    reflexivity.
  - apply (proj1 (proj2 (aggregator_result zero_is_null max_func tt
                           first_cell [[]; [0]]%Z)) ValueError);
      reflexivity.
  - apply (proj2 (proj2 (aggregator_result zero_is_null getitem 5%Z
                           first_cell [[4]; [7]]%Z)) IndexError).
    + reflexivity.
    + discriminate.
Defined.

(** ** Attaching aggregators to columns *)

(** A loop whose steps, once done, stay done. *)
Section Settling.
Context {S X : Type} (f : S → X → S) (P : S → X → Prop).
Hypothesis stable : ∀ s x y, P s x → P (f s y) x.
Hypothesis established : ∀ s x, P (f s x) x.
Hypothesis no_change : ∀ s x, P s x → f s x = s.

Lemma fold_left_stable (l : list X) s x : P s x → P (fold_left f l s) x.
Proof. revert s. induction l as [|y l IH]; intros s Hs; simpl; auto. Qed.

Lemma fold_left_established (l : list X) s x :
  x ∈ l → P (fold_left f l s) x.
Proof.
  revert s. induction l as [|y l IH]; intros s Hx; simpl.
  - by apply elem_of_nil in Hx.
  - apply elem_of_cons in Hx as [->|Hx]; [|by apply IH].
    apply fold_left_stable, established.
Qed.

Lemma fold_left_no_change (l : list X) s :
  (∀ x, x ∈ l → P s x) → fold_left f l s = s.
Proof.
  induction l as [|y l IH]; intros Hall; simpl; [done|].
  rewrite no_change by (apply Hall; left). apply IH.
  intros x Hx. apply Hall. by right.
Qed.

Lemma fold_left_twice (l : list X) s :
  fold_left f l (fold_left f l s) = fold_left f l s.
Proof. apply fold_left_no_change. intros x Hx. by apply fold_left_established. Qed.

End Settling.

Lemma fold_left_bind {S X Y} (f : S → Y → S) (g : X → list Y) (l : list X) s :
  fold_left f (l ≫= g) s = fold_left (λ s x, fold_left f (g x) s) l s.
Proof.
  revert s. induction l as [|x l IH]; intros s; [done|].
  rewrite bind_cons, fold_left_app. apply IH.
Qed.

Lemma fold_left_ext {S X} (f g : S → X → S) (l : list X) s :
  (∀ s x, f s x = g s x) → fold_left f l s = fold_left g l s.
Proof.
  intros Hfg. revert s. induction l as [|x l IH]; intros s; simpl; [done|].
  by rewrite Hfg, IH.
Qed.

Lemma fold_left_fmap {S X Y} (f : S → Y → S) (g : X → Y) (l : list X) s :
  fold_left f (g <$> l) s = fold_left (λ s x, f s (g x)) l s.
Proof. revert s. induction l as [|x l IH]; intros s; simpl; [done|]. apply IH. Qed.

Section BindingFacts.
Variable aggregators : gmap string regval.
Context {Col : Type} `{Countable Col}.
Implicit Types (store : gmap Col (list regval)) (c row : Col).
Implicit Types (a b : aggr) (attached : list regval).

Lemma aggr_in_true a attached :
  aggr_in a attached = true
  ↔ ∃ b, Func b ∈ attached ∧ aggr_ident a = aggr_ident b.
Proof.
  unfold aggr_in. rewrite existsb_exists. split.
  - intros ([b|l] & Hin & Hb); [|done].
    exists b. split; [by apply list_elem_of_In|].
    by apply bool_decide_eq_true in Hb.
  - intros (b & Hin & Hb). exists (Func b).
    split; [by apply list_elem_of_In|]. by apply bool_decide_eq_true.
Qed.

Lemma aggr_in_app a attached x :
  aggr_in a attached = true → aggr_in a (attached ++ [x]) = true.
Proof.
  unfold aggr_in. rewrite existsb_app. intros ->. done.
Qed.

Lemma aggr_in_last a attached : aggr_in a (attached ++ [Func a]) = true.
Proof.
  apply aggr_in_true. exists a. split; [|done].
  apply elem_of_app. right. by left.
Qed.

Lemma attach_one_lookup aggr store c c' :
  attach_one aggr store c !! c'
  = if decide (c = c')
    then Some (attached_after aggr (default [] (store !! c)))
    else store !! c'.
Proof.
  unfold attach_one, attached_after.
  destruct (store !! c) as [l|] eqn:Hc, aggr as [a|]; simpl;
    rewrite ?lookup_insert_eq; simpl; rewrite ?Hc; simpl;
    try destruct (aggr_in a _) eqn:Hin; simpl;
    case_decide; subst; simplify_map_eq; done.
Qed.

Lemma attach_one_stable store step aggr c :
  settled store step → settled (attach_one aggr store c) step.
Proof.
  intros (l & Hl & Hin). unfold settled. rewrite attach_one_lookup.
  case_decide as Hc; [|by exists l]. subst c. rewrite Hl. simpl.
  eexists; split; [done|]. intros a Ha. specialize (Hin a Ha).
  unfold attached_after. destruct aggr as [a'|]; [|done].
  destruct (aggr_in a' l); [done|]. by apply aggr_in_app.
Qed.

Lemma attach_one_established store aggr c :
  settled (attach_one aggr store c) (aggr, c).
Proof.
  unfold settled. simpl. rewrite attach_one_lookup.
  rewrite decide_True by done. eexists; split; [done|].
  intros a ->. simpl.
  destruct (aggr_in a (default [] (store !! c))) eqn:Hin; [done|].
  apply aggr_in_last.
Qed.

Lemma attach_one_no_change store aggr c :
  settled store (aggr, c) → attach_one aggr store c = store.
Proof.
  intros (l & Hl & Hin). simpl in *. unfold attach_one. rewrite Hl.
  destruct aggr as [a|]; [|done]. simpl. rewrite Hl. simpl.
  by rewrite (Hin a eq_refl).
Qed.

Lemma addAggregators_loop_steps cols aggrnames store :
  addAggregators aggregators cols aggrnames store
  = fold_left (λ store step, attach_one step.1 store step.2)
              (loop_steps aggregators cols aggrnames) store.
Proof.
  unfold addAggregators, loop_steps. rewrite fold_left_bind.
  apply fold_left_ext. intros s aggrname. rewrite fold_left_bind.
  apply fold_left_ext. intros s' aggr. by rewrite fold_left_fmap.
Qed.

(** C9: attaching is idempotent.  An aggregator object that the column
    holds already is not attached again; one that it does not hold is
    appended, whatever the names of those it holds; and attaching the same
    names to the same columns a second time changes nothing. *)
Theorem attach_is_idempotent :
  (∀ store c attached a b,
      store !! c = Some attached → Func b ∈ attached →
      aggr_ident b = aggr_ident a →
      attach_one (Some a) store c = store)
  ∧ (∀ store c attached a,
      store !! c = Some attached →
      (∀ b, Func b ∈ attached → aggr_ident b ≠ aggr_ident a) →
      attach_one (Some a) store c = <[c := attached ++ [Func a]]> store)
  ∧ (∀ cols aggrnames store,
      addAggregators aggregators cols aggrnames
        (addAggregators aggregators cols aggrnames store)
      = addAggregators aggregators cols aggrnames store).
Proof.
  split_and!.
  - intros store c attached a b Hc Hb Hid.
    apply attach_one_no_change. exists attached. split; [done|].
    intros a' [= <-]. apply aggr_in_true. by exists b.
  - intros store c attached a Hc Hnone. unfold attach_one.
    rewrite Hc. simpl. rewrite Hc. simpl.
    destruct (aggr_in a attached) eqn:Hin; [|done].
    apply aggr_in_true in Hin as (b & Hb & Hid).
    by destruct (Hnone b Hb).
  - intros cols aggrnames store. rewrite !addAggregators_loop_steps.
    apply (fold_left_twice _ settled).
    + intros s x y. apply attach_one_stable.
    + intros s [aggr c]. apply attach_one_established.
    + intros s [aggr c]. apply attach_one_no_change.
Qed.

End BindingFacts.

(** ** The textual list of aggregators: [split] and [join] *)

Lemma string_app_cons (c : ascii) (s t : string) :
  String c s +:+ t = String c (s +:+ t).
Proof. reflexivity. Qed.

Lemma string_app_nil_l (t : string) : "" +:+ t = t.
Proof. reflexivity. Qed.

Lemma string_app_nil_r (s : string) : s +:+ "" = s.
Proof.
  induction s as [|c s IH]; [done|]. by rewrite string_app_cons, IH.
Qed.

Lemma string_app_assoc (s1 s2 s3 : string) :
  (s1 +:+ s2) +:+ s3 = s1 +:+ (s2 +:+ s3).
Proof.
  induction s1 as [|c s1 IH]; [done|]. by rewrite !string_app_cons, IH.
Qed.

Lemma split_go_no_space (w s rest : string) :
  no_space s = true →
  split_go (Some w) (s +:+ rest) = split_go (Some (w +:+ s)) rest.
Proof.
  revert w. induction s as [|c s IH]; intros w Hs.
  - by rewrite string_app_nil_l, string_app_nil_r.
  - simpl in Hs. apply andb_true_iff in Hs as [Hc Hs].
    apply andb_true_iff in Hc as [_ Hc].
    apply negb_true_iff in Hc. rewrite string_app_cons. simpl.
    rewrite Hc, IH by done. f_equal. f_equal.
    by rewrite string_app_assoc, string_app_cons, string_app_nil_l.
Qed.

Lemma split_go_word (s rest : string) :
  is_word s = true → split_go None (s +:+ rest) = split_go (Some s) rest.
Proof.
  destruct s as [|c s]; [done|]. simpl. intros Hs.
  apply andb_true_iff in Hs as [Hc Hs].
  apply andb_true_iff in Hc as [_ Hc]. apply negb_true_iff in Hc.
  rewrite Hc, split_go_no_space by done.
  by rewrite string_app_nil_l, string_app_cons, string_app_nil_l.
Qed.

Lemma split_join (names : list string) :
  Forall (λ s, is_word s = true) names → split (join " " names) = names.
Proof.
  unfold split. induction names as [|x names IH]; intros Hall; [done|].
  inversion Hall as [|? ? Hx Hnames]; subst.
  destruct names as [|y names].
  - simpl. rewrite <- (string_app_nil_r x) at 1.
    by rewrite split_go_word.
  - change (join " " (x :: y :: names))
      with (x +:+ " " +:+ join " " (y :: names)).
    rewrite split_go_word by done.
    rewrite string_app_cons, string_app_nil_l.
    change (x :: split_go None (join " " (y :: names)) = x :: y :: names).
    f_equal. by apply IH.
Qed.

(** ** [mapM] over calls that may raise *)

Lemma mapM_Ok {A B} (f : A → result B) (l : list A) (k : list B) :
  Forall2 (λ x y, f x = Ok y) l k → mapM f l = Ok k.
Proof.
  induction 1 as [|x y l k Hxy _ IH]; simpl; [done|].
  rewrite Hxy. simpl. rewrite IH. done.
Qed.

Lemma mapM_Raise {A B} (f : A → result B) (l : list A) :
  Exists (λ x, is_Ok (f x) = false) l → ∃ e, mapM f l = Raise e
    ∧ Exists (λ x, f x = Raise e) l.
Proof.
  induction l as [|x l IH]; intros Hex; [by inversion Hex|]. simpl.
  destruct (f x) as [y|e] eqn:Hx; simpl.
  - inversion Hex as [? ? Hbad|? ? Hl]; subst; [by rewrite Hx in Hbad|].
    destruct (IH Hl) as (e & -> & He). exists e. split; [done|].
    by right.
  - exists e. split; [done|]. by left.
Qed.

Section ParseFacts.
Variable aggregators : gmap string regval.
Context {Col : Type} `{Countable Col}.
Implicit Types (store : gmap Col (list regval)) (c row : Col).

Lemma attach_None_keeps_lists (cols : list Col) store c :
  default [] (fold_left (attach_one None) cols store !! c)
  = default [] (store !! c).
Proof.
  revert store. induction cols as [|c0 cols IH]; intros store; [done|].
  cbn [fold_left]. rewrite IH, attach_one_lookup. case_decide; by subst.
Qed.

(** C5, as the code has it: a name that is not in the registry makes the
    setter of the aggregators column raise [KeyError] at once, whereas
    [addAggregators] raises nothing and leaves the list of every column as
    it was. *)
Theorem unknown_name_raises_in_setter_only (k : string) :
  aggregators !! k = None →
  (∀ store row val,
      k ∈ split val →
      ∃ k', aggregators !! k' = None
            ∧ setter aggregators store row (Some val) = Raise (KeyError k'))
  ∧ (∀ (cols : list Col) store c,
      default [] (addAggregators aggregators cols [k] store !! c)
      = default [] (store !! c)).
Proof.
  intros Hk. split.
  - intros store row val Hin. unfold setter. simpl.
    destruct (mapM_Raise (lookup_aggregator aggregators) (split val))
      as (e & -> & Hex).
    { apply Exists_exists. exists k. split; [done|].
      unfold lookup_aggregator. by rewrite Hk. }
    apply Exists_exists in Hex as (k' & _ & Hk').
    unfold lookup_aggregator in Hk'.
    destruct (aggregators !! k') eqn:Hlook; [done|].
    injection Hk' as <-. by exists k'.
  - intros cols store c. unfold addAggregators, resolve. simpl.
    rewrite Hk. simpl. apply attach_None_keeps_lists.
Qed.

(** C4, as the code has it: when every attached item is a function that
    the registry holds under its own name, and the names are words, the
    setter applied to the getter's string gives the column the same list
    again. *)
Theorem getter_setter_roundtrip store row (attached : list regval) :
  default [] (store !! row) = attached →
  Forall (λ x, ∃ a, x = Func a
                    ∧ aggregators !! aggr_name a = Some (Func a)
                    ∧ is_word (aggr_name a) = true) attached →
  ∃ val, getter store row = Ok val
         ∧ setter aggregators store row (Some val)
           = Ok (<[row := attached]> store).
Proof.
  intros Hrow Hall.
  assert (∃ names, Forall2 (λ x s, __name__ x = Ok s) attached names
                   ∧ Forall (λ s, is_word s = true) names
                   ∧ Forall2 (λ s x, lookup_aggregator aggregators s = Ok x)
                             names attached) as (names & Hn & Hw & Hl).
  { clear Hrow. induction Hall as [|x l (a & -> & Hreg & Hword) _ IH].
    - exists []. by split_and!; constructor.
    - destruct IH as (names & Hn & Hw & Hl).
      exists (aggr_name a :: names). split_and!; constructor; try done.
      unfold lookup_aggregator. by rewrite Hreg. }
  exists (join " " names). unfold getter, setter. rewrite Hrow.
  rewrite (mapM_Ok _ _ _ Hn). simpl. split; [done|].
  rewrite (split_join _ Hw), (mapM_Ok _ _ _ Hl). done.
Qed.

End ParseFacts.

(** ** The binding on the built-in registry *)

(** The registry built at import time is [builtin_aggregators]. *)
Lemma register_all_builtin : register_all = Ok builtin_aggregators.
Proof. vm_compute. reflexivity. Qed.

(** [min] attached to a column that holds it: no change.  Another function
    object named ["min"]: appended. *)
Lemma attach_is_idempotent_witness :
  attach_one (Some aggr_min) store_min_keymax 1%positive = store_min_keymax
  ∧ attach_one (Some other_min) store_min_keymax 1%positive
    = <[1%positive := [Func aggr_min; Func aggr_keymax; Func other_min]]>
        store_min_keymax.
Proof.
  split.
  - apply (proj1 (attach_is_idempotent builtin_aggregators)
             store_min_keymax 1%positive
             [Func aggr_min; Func aggr_keymax] aggr_min aggr_min).
    + reflexivity.
    + left.
    + reflexivity.
  - apply (proj1 (proj2 (attach_is_idempotent builtin_aggregators))
             store_min_keymax 1%positive
             [Func aggr_min; Func aggr_keymax] other_min).
    + reflexivity.
    + intros b Hb.
      apply elem_of_cons in Hb as [Hb|Hb];
        [|apply list_elem_of_singleton in Hb];
        injection Hb as ->; discriminate.
Defined.

(** The name ["nosuch"] is not registered: the setter raises on it, and
    [addAggregators] leaves the column as it was. *)
Lemma unknown_name_raises_in_setter_only_witness :
  (∃ k', builtin_aggregators !! k' = None
         ∧ setter builtin_aggregators store_min_keymax 1%positive
                  (Some "min nosuch") = Raise (KeyError k'))
  ∧ default [] (addAggregators builtin_aggregators [1%positive] ["nosuch"]
                  store_min_keymax !! 1%positive)
    = default [] (store_min_keymax !! 1%positive).
Proof.
  split.
  - apply (proj1 (unknown_name_raises_in_setter_only builtin_aggregators
                    (Col:=positive) "nosuch" eq_refl)
             store_min_keymax 1%positive "min nosuch").
    right. left.
  - apply (proj2 (unknown_name_raises_in_setter_only builtin_aggregators
                    (Col:=positive) "nosuch" eq_refl)).
Defined.

(** C5 fails as stated for attaching: [addAggregators] with a name that is
    not registered returns normally, the column only gaining an empty
    list. *)
Lemma addAggregators_ignores_unknown_name :
  builtin_aggregators !! "nosuch" = None
  ∧ addAggregators builtin_aggregators [1%positive] ["nosuch"] ∅
    = {[ 1%positive := [] ]}.
Proof. split; reflexivity. Qed.

(** A column holding [min] and [keymax]: the getter's string gives the
    same list back through the setter. *)
Lemma getter_setter_roundtrip_witness :
  ∃ val, getter store_min_keymax 1%positive = Ok val
         ∧ setter builtin_aggregators store_min_keymax 1%positive (Some val)
           = Ok (<[1%positive := [Func aggr_min; Func aggr_keymax]]>
                   store_min_keymax).
Proof.
  apply (getter_setter_roundtrip builtin_aggregators store_min_keymax
           1%positive [Func aggr_min; Func aggr_keymax]).
  - reflexivity.
  - repeat constructor.
    + exists aggr_min. split_and!; reflexivity.
    + exists aggr_keymax. split_and!; reflexivity.
Defined.

(** C4 fails as stated: a column that received the family [q4] holds
    [p25], [p50] and [p75]; the getter prints their names, which are not
    keys of the registry, and the setter raises [KeyError] on the first. *)
Lemma roundtrip_fails_on_percentiles :
  store_q4 !! 1%positive
    = Some (Func <$> [percentile 25; percentile 50; percentile 75])
  ∧ getter store_q4 1%positive = Ok "p25 p50 p75"
  ∧ setter builtin_aggregators store_q4 1%positive (Some "p25 p50 p75")
    = Raise (KeyError "p25").
Proof. split_and!; reflexivity. Qed.

(** ** Order statistics *)

(** When [floor] and [ceil] of a float agree, [int] gives the same integer. *)
Lemma int_of_float_integral (k : float) (f c : Z) :
  math_floor k = Ok f → math_ceil k = Ok c → f = c → int_of_float k = Ok f.
Proof.
  unfold math_floor, math_ceil, int_of_float.
  destruct (Prim2SF k) as [s| s| |s m e]; try done.
  destruct s; simpl; intros [= <-] [= <-] Hfc; [|done].
  by rewrite Hfc.
Qed.

(** C8: [_percentile] returns [None] on an empty sequence; otherwise, with
    [k = (n-1) * percent], [f = floor k] and [c = ceil k], it returns the
    item at index [f] when [f = c], and [N[f]*(c-k) + N[c]*(k-f)] when
    they differ; on [1, 2, 3, 4] at 0.5 that is 2.5. *)
Theorem percentile_interpolates :
  (∀ (percent : float), _percentile (@nil num) percent id = Ok None)
  ∧ (∀ (N : list num) (percent k : float) (f c : Z),
        N ≠ [] →
        int_mul_float (Z.of_nat (length N) - 1) percent = Ok k →
        math_floor k = Ok f →
        math_ceil k = Ok c →
        (f = c → _percentile N percent id = (x ← getitem N f; Ok (Some x)))
        ∧ (f ≠ c →
           _percentile N percent id
           = (x0 ← getitem N f;
              w0 ← int_sub_float c k;
              d0 ← num_mul_float x0 w0;
              x1 ← getitem N c;
              w1 ← float_sub_int k f;
              d1 ← num_mul_float x1 w1;
              Ok (Some (PyFloat (d0 + d1)%float)))))
  ∧ _percentile [PyInt 1; PyInt 2; PyInt 3; PyInt 4] 0.5%float id
    = Ok (Some (PyFloat 2.5%float)).
Proof.
  split_and!.
  - done.
  - intros N percent k f c HN Hk Hf Hc.
    destruct N as [|x N]; [done|]. unfold _percentile.
    rewrite Hk. simpl mbind. rewrite Hf. simpl mbind. rewrite Hc. simpl mbind.
    split.
    + intros Hfc. rewrite (int_of_float_integral k f c Hf Hc Hfc).
      apply Z.eqb_eq in Hfc. by rewrite Hfc.
    + intros Hfc. apply Z.eqb_neq in Hfc. by rewrite Hfc.
  - reflexivity.
Qed.

(** On [1, 2, 3, 4]: at fraction 1 the rank is the integer 3 and the last
    item is returned; at 0.5 the rank 1.5 lies between the items 2 and 3. *)
Lemma percentile_interpolates_witness :
  _percentile [PyInt 1; PyInt 2; PyInt 3; PyInt 4] 1%float id
    = (x ← getitem [PyInt 1; PyInt 2; PyInt 3; PyInt 4] 3; Ok (Some x))
  ∧ _percentile [PyInt 1; PyInt 2; PyInt 3; PyInt 4] 0.5%float id
    = (x0 ← getitem [PyInt 1; PyInt 2; PyInt 3; PyInt 4] 1;
       w0 ← int_sub_float 2 1.5%float;
       d0 ← num_mul_float x0 w0;
       x1 ← getitem [PyInt 1; PyInt 2; PyInt 3; PyInt 4] 2;
       w1 ← float_sub_int 1.5%float 1;
       d1 ← num_mul_float x1 w1;
       Ok (Some (PyFloat (d0 + d1)%float))).
Proof.
  split.
  - apply (proj1 (proj2 percentile_interpolates)
             [PyInt 1; PyInt 2; PyInt 3; PyInt 4] 1%float 3%float 3%Z 3%Z);
      [discriminate | reflexivity | reflexivity | reflexivity | reflexivity].
  - apply (proj1 (proj2 percentile_interpolates)
             [PyInt 1; PyInt 2; PyInt 3; PyInt 4] 0.5%float 1.5%float 1%Z 2%Z);
      [discriminate | reflexivity | reflexivity | reflexivity | lia].
Defined.

(** ** The cache of computed values *)

Section EngineFacts.
Context {K : Type} `{Countable K}.
Context {Val : Type}.
Implicit Types (s : engine K Val) (ev : event K Val) (k : K).
Implicit Types (o : outcome Val) (evs : list (event K Val)).

Lemma run_snoc evs ev s : run (evs ++ [ev]) s = step (run evs s) ev.
Proof. unfold run. by rewrite fold_left_app. Qed.

Lemma starts_cons k k' (l : list K) s :
  started s = k' :: l →
  starts k s
  = ((if bool_decide (k' = k) then 1 else 0)
     + length (List.filter (λ k'', bool_decide (k'' = k)) l))%nat.
Proof. unfold starts. intros ->. simpl. by destruct (bool_decide (k' = k)). Qed.

Lemma elem_of_release k o (ws : list (nat * K)) caller k' o' :
  (caller, k', o') ∈ release k o ws ↔ (caller, k) ∈ ws ∧ k' = k ∧ o' = o.
Proof.
  induction ws as [|[c0 k0] ws IH]; simpl.
  - split; [by intros ?%elem_of_nil | by intros [?%elem_of_nil _]].
  - case_bool_decide as Hk0; rewrite ?elem_of_cons, IH; split.
    + intros [[= -> -> ->]|(? & -> & ->)]; subst; eauto.
    + intros ([[= -> ?]|?] & -> & ->); eauto.
    + intros (? & -> & ->); eauto.
    + intros ([[= -> ->]|?] & -> & ->); [done|eauto].
Qed.

Lemma elem_of_still_waiting k (ws : list (nat * K)) caller k' :
  (caller, k') ∈ still_waiting k ws ↔ (caller, k') ∈ ws ∧ k' ≠ k.
Proof.
  induction ws as [|[c0 k0] ws IH]; simpl.
  - split; [by intros ?%elem_of_nil | by intros [?%elem_of_nil _]].
  - case_bool_decide as Hk0; rewrite ?elem_of_cons, IH; split.
    + intros [? ?]; eauto.
    + intros [[[= -> ->]|?] ?]; [done|eauto].
    + intros [[= -> ->]|[? ?]]; eauto.
    + intros [[[= -> ->]|?] ?]; eauto.
Qed.

(** A resolved entry is never changed. *)
Lemma step_resolved s ev k o :
  cache s !! k = Some (Resolved o) → cache (step s ev) !! k = Some (Resolved o).
Proof.
  intros Hk. destruct ev as [caller k'|k' o']; simpl.
  - destruct (cache s !! k') as [[|o'']|] eqn:Hk'; simpl; try done.
    rewrite lookup_insert_ne; [done|]. intros ->. by rewrite Hk in Hk'.
  - destruct (cache s !! k') as [[|o'']|] eqn:Hk'; simpl; try done.
    rewrite lookup_insert_ne; [done|]. intros ->. by rewrite Hk in Hk'.
Qed.

Lemma run_resolved evs s k o :
  cache s !! k = Some (Resolved o) → cache (run evs s) !! k = Some (Resolved o).
Proof.
  revert s. induction evs as [|ev evs IH]; intros s Hk; [done|].
  simpl. by apply IH, step_resolved.
Qed.

(** No step starts a second computation of a key, or starts one without
    a [get]. *)
Lemma step_starts s ev k :
  starts k s = (if cache s !! k is Some _ then 1 else 0)%nat →
  starts k (step s ev) = (if cache (step s ev) !! k is Some _ then 1 else 0)%nat.
Proof.
  intros Hs. destruct ev as [caller k'|k' o']; simpl.
  - destruct (cache s !! k') as [[|o'']|] eqn:Hk'; simpl; try done.
    rewrite (starts_cons k k' (started s)) by done. fold (starts k s).
    rewrite Hs. case_bool_decide as Hkk.
    + subst k'. by rewrite lookup_insert_eq, Hk'.
    + by rewrite lookup_insert_ne.
  - destruct (cache s !! k') as [[|o'']|] eqn:Hk'; simpl; try done.
    unfold starts in *. simpl. rewrite Hs.
    destruct (decide (k' = k)) as [->|Hkk].
    + by rewrite lookup_insert_eq, Hk'.
    + by rewrite lookup_insert_ne.
Qed.

(** What a caller was handed is what the cache holds. *)
Lemma step_observed s ev :
  (∀ caller k o, (caller, k, o) ∈ observed s →
                 cache s !! k = Some (Resolved o)) →
  ∀ caller k o, (caller, k, o) ∈ observed (step s ev) →
                cache (step s ev) !! k = Some (Resolved o).
Proof.
  intros Hobs caller k o. destruct ev as [c0 k'|k' o']; simpl.
  - destruct (cache s !! k') as [[|o'']|] eqn:Hk'; simpl; [by eauto| |].
    + intros [[= -> -> ->]|?]%elem_of_cons; by eauto.
    + intros Hin. specialize (Hobs _ _ _ Hin).
      rewrite lookup_insert_ne; [done|]. intros ->. by rewrite Hobs in Hk'.
  - destruct (cache s !! k') as [[|o'']|] eqn:Hk'; simpl; [|by eauto..].
    intros [Hin|Hin]%elem_of_app.
    + apply elem_of_release in Hin as (_ & -> & ->).
      by rewrite lookup_insert_eq.
    + specialize (Hobs _ _ _ Hin).
      rewrite lookup_insert_ne; [done|]. intros ->. by rewrite Hobs in Hk'.
Qed.

(** A key has an entry exactly when some [get] asked for it. *)
Lemma step_requested s ev k :
  is_Some (cache (step s ev) !! k)
  ↔ is_Some (cache s !! k) ∨ ∃ caller, ev = Get caller k.
Proof.
  destruct ev as [c0 k'|k' o']; simpl.
  - destruct (cache s !! k') as [[|o'']|] eqn:Hk'; simpl.
    + split; [by left|]. intros [?|[c [= _ <-]]]; [done|by rewrite Hk'].
    + split; [by left|]. intros [?|[c [= _ <-]]]; [done|by rewrite Hk'].
    + rewrite lookup_insert. case_decide as Hkk.
      * subst k'. split; [right; by exists c0 | by eauto].
      * split; [by left|]. intros [?|[c [= _ ->]]]; done.
  - destruct (cache s !! k') as [[|o'']|] eqn:Hk'; simpl.
    + rewrite lookup_insert. case_decide as Hkk.
      * subst k'. rewrite Hk'. split; [by left | by eauto].
      * split; [by left|]. intros [?|[c [=]]]; done.
    + split; [by left|]. intros [?|[c [=]]]; done.
    + split; [by left|]. intros [?|[c [=]]]; done.
Qed.

(** A caller stays attached until it is handed the outcome. *)
Lemma step_attached s ev caller k :
  ((caller, k) ∈ waiters s ∨ ∃ o, (caller, k, o) ∈ observed s)
  ∨ ev = Get caller k →
  (caller, k) ∈ waiters (step s ev) ∨ ∃ o, (caller, k, o) ∈ observed (step s ev).
Proof.
  intros Hbefore. destruct ev as [c0 k'|k' o']; simpl.
  - destruct (cache s !! k') as [[|o'']|] eqn:Hk'; simpl.
    + destruct Hbefore as [[?|?]|[= -> ->]];
        [left; by right | by right | left; by left].
    + destruct Hbefore as [[?|[o ?]]|[= -> ->]].
      * by left.
      * right. exists o. by right.
      * right. exists o''. by left.
    + destruct Hbefore as [[?|?]|[= -> ->]];
        [left; by right | by right | left; by left].
  - destruct Hbefore as [Hbefore|[=]].
    destruct (cache s !! k') as [[|o'']|] eqn:Hk'; simpl; [|done..].
    destruct Hbefore as [Hw|[o Ho]].
    + destruct (decide (k = k')) as [->|Hkk].
      * right. exists o'. apply elem_of_app. left.
        by apply elem_of_release.
      * left. by apply elem_of_still_waiting.
    + right. exists o. apply elem_of_app. by right.
Qed.

(** The invariant of the engine along any history from the empty cache. *)
Lemma engine_invariant evs :
  let s := run evs (empty_engine (K:=K) (Val:=Val)) in
  (∀ k, starts k s = (if cache s !! k is Some _ then 1 else 0)%nat)
  ∧ (∀ k, is_Some (cache s !! k) ↔ ∃ caller, Get caller k ∈ evs)
  ∧ (∀ caller k, Get caller k ∈ evs →
        (caller, k) ∈ waiters s ∨ ∃ o, (caller, k, o) ∈ observed s)
  ∧ (∀ caller k o, (caller, k, o) ∈ observed s →
        cache s !! k = Some (Resolved o)).
Proof.
  simpl. induction evs as [|ev evs (IHs & IHr & IHa & IHo)] using rev_ind.
  - split_and!.
    + done.
    + intros k. simpl. rewrite lookup_empty. split.
      * by intros [? ?].
      * by intros [? ?%elem_of_nil].
    + by intros ? ? ?%elem_of_nil.
    + by intros ? ? ? ?%elem_of_nil.
  - rewrite run_snoc. split_and!.
    + intros k. by apply step_starts.
    + intros k. rewrite step_requested, IHr. split.
      * intros [[c Hc]|[c ->]]; exists c; apply elem_of_app;
          [by left | right; by left].
      * intros [c [Hc|Hc%list_elem_of_singleton]%elem_of_app]; eauto.
    + intros caller k [Hin|Hin%list_elem_of_singleton]%elem_of_app;
        apply step_attached; [left; by apply IHa | by right].
    + by apply step_observed.
Qed.


(** C2: once the computation of a key has ended with an error, any later
    [get] of the key, whatever happened in between, is handed that error
    at once: the entry stays resolved, no computation is started, and the
    key's computation has run once. *)
Theorem failure_is_cached pre post k (e : exn) (caller : nat) :
  cache (run pre (empty_engine (K:=K) (Val:=Val))) !! k = Some Pending →
  let s := run (pre ++ [Finished k (Error e)] ++ post) empty_engine in
  step s (Get caller k)
  = {| cache := cache s; started := started s; waiters := waiters s;
       observed := (caller, k, Error e) :: observed s |}
  ∧ cache s !! k = Some (Resolved (Error e))
  ∧ starts k s = 1.
Proof.
  intros Hpending s.
  assert (cache s !! k = Some (Resolved (Error e))) as Hres.
  { unfold s, run. rewrite !fold_left_app. apply run_resolved.
    simpl. fold (run pre (empty_engine (K:=K) (Val:=Val))).
    rewrite Hpending. simpl. by rewrite lookup_insert_eq. }
  split_and!.
  - simpl. by rewrite Hres.
  - done.
  - destruct (engine_invariant (pre ++ [Finished k (Error e)] ++ post))
      as (Hstarts & _).
    fold s in Hstarts. by rewrite Hstarts, Hres.
Qed.

End EngineFacts.


(** Key 7 fails with a process error; key 8 is computed in between; a
    later [get] of key 7 is handed the same error and starts nothing. *)
Lemma failure_is_cached_witness :
  let e := OtherError "ProcessError" in
  let s : engine nat string :=
    run ([Get 1 7] ++ [Finished 7 (Error e)]
         ++ [Get 2 8; Finished 8 (Value "x")]) empty_engine in
  step s (Get 3 7)
  = {| cache := cache s; started := started s; waiters := waiters s;
       observed := (3, 7, Error e) :: observed s |}
  ∧ cache s !! 7 = Some (Resolved (Error e))
  ∧ starts 7 s = 1.
Proof.
  exact (failure_is_cached (K:=nat) (Val:=string)
           [Get 1 7] [Get 2 8; Finished 8 (Value "x")] 7
           (OtherError "ProcessError") 3 eq_refl).
Defined.

(** ** The shell column *)

(** An exception in the [try] block of [calcValue] is caught, but the
    handler raises [NameError]: the method never returns [None]. *)
Lemma calcValue_failure shlex_split context communicate expr e :
  run_command shlex_split context communicate expr = Raise e →
  calcValue shlex_split context communicate expr = Raise (NameError "vd").
Proof. unfold calcValue. by intros ->. Qed.

Lemma calcValue_success shlex_split context communicate expr out_err :
  run_command shlex_split context communicate expr = Ok out_err →
  calcValue shlex_split context communicate expr = Ok (Some out_err).
Proof. unfold calcValue. by intros ->. Qed.

(** A program that cannot be started: the handler's [NameError] is what
    the caller gets. *)
Example calcValue_of_missing_program :
  calcValue plain_split one_column no_such_program "nosuch -l"
  = Raise (NameError "vd").
Proof. reflexivity. Qed.

(** ** The built-in functions on examples *)

(** [median] takes the upper middle item of an even number of values. *)
Example median_of_four : median [1; 2; 3; 4]%Z tt = Ok 3%Z.
Proof. reflexivity. Qed.

Example median_of_three : median [3; 1; 2]%Z tt = Ok 2%Z.
Proof. reflexivity. Qed.

(** [quantiles(4)] is the family [p25], [p50], [p75]. *)
Example quantiles_4 : quantiles 4 = Ok (percentile <$> [25; 50; 75]%Z).
Proof. vm_compute. reflexivity. Qed.

(** A row whose typed value raises does not stop [sum] over the others. *)
Example sum_skips_failing_row :
  aggregator never_null sum_func tt first_cell [[4]; []; [7]]%Z
  = Returned 11%Z.
Proof. reflexivity. Qed.

(** [min] over no value raises in the wrapped function, and the wrapper
    returns [None]. *)
Example min_of_nothing :
  aggregator never_null min_func tt first_cell [[]; []]%Z = ReturnedNone.
Proof. reflexivity. Qed.

(** ** The bulk aggregators over integer values *)

Lemma fold_left_add (l : list Z) (acc : Z) :
  fold_left Z.add l acc = (acc + py_sum l)%Z.
Proof.
  unfold py_sum. revert acc. induction l as [|x l IH]; intros acc; simpl.
  - lia.
  - rewrite (IH (acc + x)%Z), (IH (0 + x)%Z). lia.
Qed.

Lemma py_sum_app (l1 l2 : list Z) : py_sum (l1 ++ l2) = (py_sum l1 + py_sum l2)%Z.
Proof. unfold py_sum at 1. by rewrite fold_left_app, fold_left_add. Qed.

Lemma py_sum_Permutation (l1 l2 : list Z) : l1 ≡ₚ l2 → py_sum l1 = py_sum l2.
Proof.
  induction 1 as [|x l1 l2 _ IH|x y l|l1 l2 l3 _ IH1 _ IH2].
  - done.
  - unfold py_sum. simpl. rewrite !(fold_left_add _ (0 + x)). lia.
  - unfold py_sum. simpl. f_equal. lia.
  - congruence.
Qed.

(** The running minimum of [min]: a value of the list, below all of them. *)
Lemma fold_min_spec (l : list Z) (x : Z) :
  let m := fold_left (λ m v, if (v <? m)%Z then v else m) l x in
  m ∈ x :: l ∧ ∀ v, v ∈ x :: l → (m ≤ v)%Z.
Proof.
  revert x. induction l as [|y l IH]; intros x; simpl.
  - split; [left|]. by intros v ->%list_elem_of_singleton.
  - destruct (IH (if (y <? x)%Z then y else x)) as [Hin Hle]. split.
    + apply elem_of_cons in Hin as [->|Hin].
      * destruct (y <? x)%Z; [right; left | left].
      * right; by right.
    + intros v Hv.
      assert ((if (y <? x)%Z then y else x) ≤ x
              ∧ (if (y <? x)%Z then y else x) ≤ y)%Z as [Hx Hy].
      { destruct (Z.ltb_spec y x); lia. }
      pose proof (Hle _ (list_elem_of_here _ _)) as Hm.
      apply elem_of_cons in Hv as [->|[->|Hv]%elem_of_cons].
      * lia.
      * lia.
      * apply Hle. by right.
Qed.

Lemma fold_max_spec (l : list Z) (x : Z) :
  let m := fold_left (λ m v, if (v >? m)%Z then v else m) l x in
  m ∈ x :: l ∧ ∀ v, v ∈ x :: l → (v ≤ m)%Z.
Proof.
  revert x. induction l as [|y l IH]; intros x; simpl.
  - split; [left|]. by intros v ->%list_elem_of_singleton.
  - destruct (IH (if (y >? x)%Z then y else x)) as [Hin Hle]. split.
    + apply elem_of_cons in Hin as [->|Hin].
      * destruct (y >? x)%Z; [right; left | left].
      * right; by right.
    + intros v Hv.
      assert (x ≤ (if (y >? x)%Z then y else x)
              ∧ y ≤ (if (y >? x)%Z then y else x))%Z as [Hx Hy].
      { destruct (Z.gtb_spec y x); lia. }
      pose proof (Hle _ (list_elem_of_here _ _)) as Hm.
      apply elem_of_cons in Hv as [->|[->|Hv]%elem_of_cons].
      * lia.
      * lia.
      * apply Hle. by right.
Qed.

Lemma min_func_spec (vals : list Z) :
  vals ≠ [] →
  ∃ m, min_func vals tt = Ok m ∧ m ∈ vals ∧ ∀ v, v ∈ vals → (m ≤ v)%Z.
Proof.
  destruct vals as [|x vals]; [done|]. intros _. eexists. split; [done|].
  apply fold_min_spec.
Qed.

Lemma max_func_spec (vals : list Z) :
  vals ≠ [] →
  ∃ m, max_func vals tt = Ok m ∧ m ∈ vals ∧ ∀ v, v ∈ vals → (v ≤ m)%Z.
Proof.
  destruct vals as [|x vals]; [done|]. intros _. eexists. split; [done|].
  apply fold_max_spec.
Qed.

Lemma min_func_Permutation (l1 l2 : list Z) :
  l1 ≡ₚ l2 → min_func l1 tt = min_func l2 tt.
Proof.
  intros Hp. destruct l1 as [|x l1].
  - by apply Permutation_nil_l in Hp as ->.
  - destruct l2 as [|y l2]; [by apply Permutation_nil_r in Hp|].
    destruct (min_func_spec (x :: l1)) as (m1 & -> & Hin1 & Hle1); [done|].
    destruct (min_func_spec (y :: l2)) as (m2 & -> & Hin2 & Hle2); [done|].
    f_equal. apply Z.le_antisymm.
    + apply Hle1. by rewrite Hp.
    + apply Hle2. by rewrite <- Hp.
Qed.

Lemma max_func_Permutation (l1 l2 : list Z) :
  l1 ≡ₚ l2 → max_func l1 tt = max_func l2 tt.
Proof.
  intros Hp. destruct l1 as [|x l1].
  - by apply Permutation_nil_l in Hp as ->.
  - destruct l2 as [|y l2]; [by apply Permutation_nil_r in Hp|].
    destruct (max_func_spec (x :: l1)) as (m1 & -> & Hin1 & Hle1); [done|].
    destruct (max_func_spec (y :: l2)) as (m2 & -> & Hin2 & Hle2); [done|].
    f_equal. apply Z.le_antisymm.
    + apply Hle2. by rewrite <- Hp.
    + apply Hle1. by rewrite Hp.
Qed.

Lemma merge_sort_Z_Permutation (l1 l2 : list Z) :
  l1 ≡ₚ l2 → merge_sort Z.le l1 = merge_sort Z.le l2.
Proof.
  intros Hp. apply (Sorted_unique Z.le).
  - apply Sorted_merge_sort, _.
  - apply Sorted_merge_sort, _.
  - by rewrite !merge_sort_Permutation.
Qed.

Lemma getitem_Some {A} (L : list A) (i : nat) (x : A) :
  L !! i = Some x → getitem L (Z.of_nat i) = Ok x.
Proof.
  intros Hi. pose proof (lookup_lt_Some _ _ _ Hi) as Hlt. unfold getitem.
  destruct (Z.ltb_spec (Z.of_nat i) 0); [lia|].
  destruct (Z.ltb_spec (Z.of_nat i) 0); [lia|].
  destruct (Z.leb_spec (Z.of_nat (length L)) (Z.of_nat i)); [lia|].
  simpl. by rewrite Nat2Z.id, Hi.
Qed.

Section ExtractorMore.
Context {Row V Key : Type}.
Variable isNullFunc : V → bool.
Implicit Types (col : Column Row V Key) (rows : list Row).

Lemma getValues_app col rows1 rows2 :
  getValues isNullFunc col (rows1 ++ rows2)
  = getValues isNullFunc col rows1 ++ getValues isNullFunc col rows2.
Proof.
  unfold getValues. by rewrite getValueRows_app, !values_of_fst, map_app.
Qed.

Lemma getValueRows_Permutation col rows rows' :
  rows ≡ₚ rows' →
  getValueRows isNullFunc col rows ≡ₚ getValueRows isNullFunc col rows'.
Proof.
  induction 1 as [|r l1 l2 _ IH|r1 r2 l|l1 l2 l3 _ IH1 _ IH2]; simpl.
  - done.
  - destruct (getTypedValue col r) as [v|e]; [|done].
    destruct (isNullFunc v); simpl; [done|]. by rewrite IH.
  - destruct (getTypedValue col r1) as [v1|e1], (getTypedValue col r2) as [v2|e2];
      try destruct (isNullFunc v1); try destruct (isNullFunc v2); simpl;
      try done. apply perm_swap.
  - by etrans.
Qed.

Lemma getValues_Permutation col rows rows' :
  rows ≡ₚ rows' →
  getValues isNullFunc col rows ≡ₚ getValues isNullFunc col rows'.
Proof.
  intros Hp. unfold getValues. rewrite !values_of_fst.
  apply Permutation_map. by apply getValueRows_Permutation.
Qed.


End ExtractorMore.

Section BulkFacts.
Context {Row Key : Type}.
Variable isNullFunc : Z → bool.
Implicit Types (col : Column Row Z Key) (rows : list Row).

(** X1: On a column of integer values, [sum], [count] and [list] over
    two row sequences one after the other give the sum of the two sums,
    the sum of the two counts, and the two lists one after the other. *)
Theorem sum_count_list_of_concatenation col rows1 rows2 :
  ∃ s1 s2 n1 n2 l1 l2,
    aggregator isNullFunc sum_func tt col rows1 = Returned s1
    ∧ aggregator isNullFunc sum_func tt col rows2 = Returned s2
    ∧ aggregator isNullFunc sum_func tt col (rows1 ++ rows2)
      = Returned (s1 + s2)%Z
    ∧ count isNullFunc col rows1 = Returned n1
    ∧ count isNullFunc col rows2 = Returned n2
    ∧ count isNullFunc col (rows1 ++ rows2) = Returned (n1 + n2)%Z
    ∧ list_aggr isNullFunc col rows1 = Returned l1
    ∧ list_aggr isNullFunc col rows2 = Returned l2
    ∧ list_aggr isNullFunc col (rows1 ++ rows2) = Returned (l1 ++ l2).
Proof.
  eexists _, _, _, _, _, _.
  unfold count, list_aggr, aggregator, sum_func, count_func, list_func.
  split_and!; try reflexivity.
  - rewrite getValues_app. f_equal. apply py_sum_app.
  - rewrite getValues_app. f_equal. unfold py_sum.
    rewrite !py_sum_ones_from, length_app. lia.
  - by rewrite getValues_app.
Qed.

(** X2: With no value to aggregate (no row, or only rows whose value raises
    or is null): [min], [max] and [median] return [None], through the
    exception they raise; [mean] returns [None] by itself; [sum] and
    [count] return 0; [list] and [distinct] return the empty list and
    set; [keymax], which nothing wraps, raises [ValueError]. *)
Theorem aggregators_of_no_value col rows row_eqb row_gt :
  getValues isNullFunc col rows = [] →
  aggregator isNullFunc min_func tt col rows = ReturnedNone
  ∧ aggregator isNullFunc max_func tt col rows = ReturnedNone
  ∧ aggregator isNullFunc median tt col rows = ReturnedNone
  ∧ aggregator isNullFunc mean tt col rows = Returned None
  ∧ aggregator isNullFunc sum_func tt col rows = Returned 0%Z
  ∧ count isNullFunc col rows = Returned 0%Z
  ∧ list_aggr isNullFunc col rows = Returned []
  ∧ aggregator isNullFunc distinct_func tt col rows = Returned ∅
  ∧ keymax row_eqb row_gt isNullFunc col rows = Raise ValueError.
Proof.
  intros Hnone. unfold count, list_aggr, aggregator, keymax.
  rewrite Hnone. split_and!; try reflexivity.
  unfold getValues in Hnone. rewrite values_of_fst in Hnone.
  apply fmap_nil_inv in Hnone. by rewrite Hnone.
Qed.

(** X3: [min] over at least one value returns one of the values, and none of
    the values is smaller. *)
Theorem min_is_least_value col rows :
  getValues isNullFunc col rows ≠ [] →
  ∃ m, aggregator isNullFunc min_func tt col rows = Returned m
       ∧ m ∈ getValues isNullFunc col rows
       ∧ ∀ v, v ∈ getValues isNullFunc col rows → (m ≤ v)%Z.
Proof.
  intros Hne. destruct (min_func_spec _ Hne) as (m & Hm & Hin & Hle).
  exists m. unfold aggregator. by rewrite Hm.
Qed.

(** X4: [max] over at least one value returns one of the values, and none of
    the values is greater. *)
Theorem max_is_greatest_value col rows :
  getValues isNullFunc col rows ≠ [] →
  ∃ m, aggregator isNullFunc max_func tt col rows = Returned m
       ∧ m ∈ getValues isNullFunc col rows
       ∧ ∀ v, v ∈ getValues isNullFunc col rows → (v ≤ m)%Z.
Proof.
  intros Hne. destruct (max_func_spec _ Hne) as (m & Hm & Hin & Hle).
  exists m. unfold aggregator. by rewrite Hm.
Qed.

(** X5: The order of the rows does not matter to [min], [max], [median],
    [sum], [count] and [distinct]. *)
Theorem aggregators_ignore_row_order col rows rows' :
  rows ≡ₚ rows' →
  aggregator isNullFunc min_func tt col rows
    = aggregator isNullFunc min_func tt col rows'
  ∧ aggregator isNullFunc max_func tt col rows
    = aggregator isNullFunc max_func tt col rows'
  ∧ aggregator isNullFunc median tt col rows
    = aggregator isNullFunc median tt col rows'
  ∧ aggregator isNullFunc sum_func tt col rows
    = aggregator isNullFunc sum_func tt col rows'
  ∧ count isNullFunc col rows = count isNullFunc col rows'
  ∧ aggregator isNullFunc distinct_func tt col rows
    = aggregator isNullFunc distinct_func tt col rows'.
Proof.
  intros Hp. pose proof (getValues_Permutation isNullFunc col _ _ Hp) as Hv.
  pose proof (Permutation_length Hv) as Hlen.
  unfold count, aggregator. split_and!.
  - by rewrite (min_func_Permutation _ _ Hv), Hlen.
  - by rewrite (max_func_Permutation _ _ Hv), Hlen.
  - unfold median. by rewrite (merge_sort_Z_Permutation _ _ Hv), Hlen.
  - unfold sum_func. fold (py_sum (getValues isNullFunc col rows)).
    fold (py_sum (getValues isNullFunc col rows')).
    by rewrite (py_sum_Permutation _ _ Hv).
  - unfold count_func, py_sum. by rewrite !py_sum_ones_from, Hlen.
  - unfold distinct_func. by rewrite (list_to_set_perm_L _ _ Hv).
Qed.

End BulkFacts.

Lemma length_filter_Forall {A} (P : A → Prop) `{∀ x, Decision (P x)}
    (l : list A) :
  Forall P l → length (filter P l) = length l.
Proof.
  induction 1 as [|x l Hx _ IH]; [done|].
  rewrite filter_cons_True by done. simpl. by rewrite IH.
Qed.


(** [median] on a sorted list with at least one item: the item in the
    middle, with the items before it below and the items after above. *)
Lemma median_split (vals : list Z) :
  vals ≠ [] →
  ∃ m l1 l2,
    median vals tt = Ok m
    ∧ merge_sort Z.le vals = l1 ++ m :: l2
    ∧ length l1 = (length vals / 2)%nat
    ∧ Forall (λ v, (v ≤ m)%Z) l1
    ∧ Forall (λ v, (m ≤ v)%Z) l2.
Proof.
  intros Hne. unfold median.
  pose proof (merge_sort_Permutation Z.le vals) as Hperm.
  pose proof (StronglySorted_merge_sort Z.le vals) as Hsorted.
  pose proof (Permutation_length Hperm) as Hlen.
  set (L := merge_sort Z.le vals) in *.
  assert (0 < length vals) as Hpos by (destruct vals; [done|simpl; lia]).
  assert (length vals / 2 < length L)%nat as Hi.
  { rewrite Hlen. apply Nat.div_lt; lia. }
  destruct (lookup_lt_is_Some_2 L _ Hi) as [m Hm].
  exists m, (take (length vals / 2) L), (drop (S (length vals / 2)) L).
  pose proof (take_drop_middle _ _ _ Hm) as Hsplit.
  split_and!.
  - rewrite Hlen. rewrite <- (Nat2Z.inj_div _ 2). by apply getitem_Some.
  - done.
  - rewrite length_take. lia.
  - rewrite <- Hsplit in Hsorted. apply Forall_forall. intros v Hv.
    apply (StronglySorted_app_1_elem_of _ _ _ v m Hsorted); [done | left].
  - rewrite <- Hsplit in Hsorted.
    apply StronglySorted_app_1_r, StronglySorted_cons in Hsorted.
    by destruct Hsorted.
Qed.

Section MedianDistinct.
Context {Row Key : Type}.
Variable isNullFunc : Z → bool.
Implicit Types (col : Column Row Z Key) (rows : list Row).

(** X6: [median] over at least one value returns one of the values; more than
    half of the values are at most it, and at least half are at least it. *)
Theorem median_is_middle_value col rows :
  getValues isNullFunc col rows ≠ [] →
  ∃ m, aggregator isNullFunc median tt col rows = Returned m
       ∧ m ∈ getValues isNullFunc col rows
       ∧ length (getValues isNullFunc col rows)
         < 2 * length (filter (λ v, (v ≤ m)%Z) (getValues isNullFunc col rows))
       ∧ length (getValues isNullFunc col rows)
         ≤ 2 * length (filter (λ v, (m ≤ v)%Z) (getValues isNullFunc col rows)).
Proof.
  intros Hne. set (vals := getValues isNullFunc col rows) in *.
  destruct (median_split vals Hne) as (m & l1 & l2 & Hm & HL & Hl1 & Hle & Hge).
  pose proof (merge_sort_Permutation Z.le vals) as Hperm.
  rewrite HL in Hperm.
  exists m. unfold aggregator. fold vals. rewrite Hm. split_and!.
  - done.
  - rewrite <- Hperm. apply elem_of_app. right. left.
  - rewrite <- (Permutation_length Hperm) at 1. rewrite <- Hperm.
    rewrite filter_app, filter_cons_True by lia.
    rewrite !length_app, (length_filter_Forall _ l1 Hle). simpl.
    pose proof (Permutation_length Hperm) as Hlen.
    rewrite length_app in Hlen. simpl in Hlen.
    pose proof (Nat.div_mod_eq (length vals) 2) as Hdiv.
    pose proof (Nat.mod_upper_bound (length vals) 2). lia.
  - rewrite <- (Permutation_length Hperm) at 1. rewrite <- Hperm.
    rewrite filter_app, filter_cons_True by lia.
    rewrite !length_app. simpl. rewrite (length_filter_Forall _ l2 Hge).
    pose proof (Permutation_length Hperm) as Hlen.
    rewrite length_app in Hlen. simpl in Hlen.
    pose proof (Nat.div_mod_eq (length vals) 2) as Hdiv.
    pose proof (Nat.mod_upper_bound (length vals) 2). lia.
Qed.


End MedianDistinct.

(** ** [keymax] without ties *)

Section KeymaxMore.
Context {Row Key : Type}.
Variable row_eqb : Row → Row → bool.
Variable row_gt : Row → Row → result bool.
Variable isNullFunc : Z → bool.
Implicit Types (col : Column Row Z Key) (rows : list Row).
Implicit Types (a b cur : Z * Row) (items : list (Z * Row)).

(** Whatever the rows say, the item that [max] keeps has the greater value. *)
Lemma tuple_gt_keeps_greater a b (greater : bool) :
  tuple_gt row_eqb row_gt a b = Ok greater →
  (if greater then a else b).1 = Z.max a.1 b.1.
Proof.
  unfold tuple_gt. destruct (Z.eqb_spec a.1 b.1) as [Heq|Hne]; simpl.
  - intros _. destruct greater; lia.
  - intros [= <-]. destruct (Z.gtb_spec a.1 b.1); lia.
Qed.

Lemma max_loop_Ok cur items res :
  max_loop row_eqb row_gt cur items = Ok res →
  res ∈ cur :: items ∧ ∀ a, a ∈ cur :: items → (a.1 ≤ res.1)%Z.
Proof.
  revert cur. induction items as [|x items IH]; intros cur; simpl.
  - intros [= <-]. split; [left|]. by intros a ->%list_elem_of_singleton.
  - destruct (tuple_gt row_eqb row_gt x cur) as [greater|e] eqn:Hgt; [|done].
    simpl. intros Hres. apply IH in Hres as [Hin Hle].
    apply tuple_gt_keeps_greater in Hgt.
    pose proof (Hle _ (list_elem_of_here _ _)) as Hcur. split.
    + apply elem_of_cons in Hin as [->|Hin].
      * destruct greater; [right; left | left].
      * right; by right.
    + intros a [->|[->|Ha]%elem_of_cons]%elem_of_cons.
      * lia.
      * lia.
      * apply Hle. by right.
Qed.

Lemma max_loop_no_tie cur items :
  cur.1 ∉ items.*1 → NoDup items.*1 →
  ∃ res, max_loop row_eqb row_gt cur items = Ok res.
Proof.
  revert cur. induction items as [|x items IH]; intros cur Hcur Hnd; simpl.
  - by eexists.
  - rewrite fmap_cons in Hcur, Hnd. apply not_elem_of_cons in Hcur as [Hne Hcur].
    apply NoDup_cons in Hnd as [Hx Hnd].
    rewrite tuple_gt_values by done. simpl.
    apply IH; [|done]. by destruct (x.1 >? cur.1)%Z.
Qed.

(** X8: On a column of integer values, whenever [keymax] returns a key,
    it is the key of a row whose value is the maximum; and when no two
    rows have the same value it does return one, the rows themselves
    never being compared. *)
Theorem keymax_row_has_maximum col rows :
  (∀ key, keymax row_eqb row_gt isNullFunc col rows = Ok key →
      ∃ v r, key = rowkey col r
             ∧ (v, r) ∈ getValueRows isNullFunc col rows
             ∧ ∀ a, a ∈ getValueRows isNullFunc col rows → (a.1 ≤ v)%Z)
  ∧ (getValueRows isNullFunc col rows ≠ [] →
     NoDup (getValueRows isNullFunc col rows).*1 →
     ∃ v r, keymax row_eqb row_gt isNullFunc col rows = Ok (rowkey col r)
            ∧ (v, r) ∈ getValueRows isNullFunc col rows
            ∧ ∀ a, a ∈ getValueRows isNullFunc col rows → (a.1 ≤ v)%Z).
Proof.
  unfold keymax. destruct (getValueRows isNullFunc col rows) as [|x items].
  { split; [done|]. by intros []. }
  simpl. split.
  - intros key.
    destruct (max_loop row_eqb row_gt x items) as [[v r]|e] eqn:Hmax; [|done].
    simpl. intros [= <-]. apply max_loop_Ok in Hmax as [Hin Hle].
    by exists v, r.
  - intros _ Hnd. apply NoDup_cons in Hnd as [Hx Hnd].
    destruct (max_loop_no_tie x items Hx Hnd) as [[v r] Hmax].
    rewrite Hmax. simpl. apply max_loop_Ok in Hmax as [Hin Hle].
    by exists v, r.
Qed.

End KeymaxMore.

(** ** What [addAggregators] changes *)

Lemma fold_left_related {S X} (R : S → S → Prop)
    (f : S → X → S) (l : list X) (s : S) :
  (∀ s, R s s) →
  (∀ s1 s2 s3, R s1 s2 → R s2 s3 → R s1 s3) →
  (∀ s x, x ∈ l → R s (f s x)) → R s (fold_left f l s).
Proof.
  intros Hrefl Htrans. revert s.
  induction l as [|x l IH]; intros s Hstep; simpl; [done|].
  apply (Htrans _ (f s x)).
  - apply Hstep. left.
  - apply IH. intros s' y Hy. apply Hstep. by right.
Qed.

Section BindingMore.
Variable aggregators : gmap string regval.
Context {Col : Type} `{Countable Col}.
Implicit Types (store : gmap Col (list regval)) (c row : Col).
Implicit Types (a b : aggr) (attached : list regval).

Lemma elem_of_loop_steps (cols : list Col) (aggrnames : list string)
    (aggr : option aggr) c :
  (aggr, c) ∈ loop_steps aggregators cols aggrnames
  ↔ c ∈ cols
    ∧ ∃ aggrname, aggrname ∈ aggrnames ∧ aggr ∈ resolve aggregators aggrname.
Proof.
  unfold loop_steps. rewrite list_elem_of_bind. split.
  - intros (aggrname & Hin & Hname).
    apply list_elem_of_bind in Hin as (aggr' & Hin & Haggr).
    apply list_elem_of_fmap in Hin as (c' & [= -> ->] & Hc). eauto.
  - intros (Hc & aggrname & Hname & Haggr). exists aggrname. split; [|done].
    apply list_elem_of_bind. exists aggr. split; [|done].
    apply list_elem_of_fmap. eauto.
Qed.

(** What a name resolves to, in terms of the registry. *)
Lemma elem_of_resolve (aggrname : string) a :
  Some a ∈ resolve aggregators aggrname
  ↔ aggregators !! aggrname = Some (Func a)
    ∨ ∃ l, aggregators !! aggrname = Some (FuncList l) ∧ a ∈ l.
Proof.
  unfold resolve. destruct (aggregators !! aggrname) as [[b|l]|].
  - rewrite list_elem_of_singleton. split.
    + intros [= ->]. by left.
    + intros [[= ->]|(l & [=] & _)]. done.
  - rewrite list_elem_of_fmap. split.
    + intros (b & [= ->] & Hb). right. eauto.
    + intros [[=]|(l' & [= <-] & Ha)]. eauto.
  - rewrite list_elem_of_singleton. split; [done|].
    by intros [[=]|(l & [=] & _)].
Qed.

Lemma aggr_in_idents a attached :
  aggr_in a attached = true ↔ aggr_ident a ∈ idents attached.
Proof.
  rewrite aggr_in_true. unfold idents. rewrite list_elem_of_omap. split.
  - intros (b & Hb & Hid). exists (Func b). by rewrite Hid.
  - intros ([b|l] & Hb & Hid); [|done]. injection Hid as Hid. eauto.
Qed.

Lemma idents_app attached1 attached2 :
  idents (attached1 ++ attached2) = idents attached1 ++ idents attached2.
Proof. unfold idents. apply omap_app. Qed.

(** One execution of the loop body: the list of a column keeps its items
    and gains at most the aggregator at hand. *)
Lemma attach_one_appends (aggr : option aggr) store c c' :
  default [] (attach_one aggr store c !! c')
  = default [] (store !! c')
    ++ (if decide (c = c')
        then match aggr with
             | Some a => if aggr_in a (default [] (store !! c'))
                         then [] else [Func a]
             | None => []
             end
        else []).
Proof.
  rewrite attach_one_lookup. case_decide as Hc; [subst c'|by rewrite app_nil_r].
  simpl. unfold attached_after. destruct aggr as [a|]; [|by rewrite app_nil_r].
  by destruct (aggr_in a _); rewrite ?app_nil_r.
Qed.

(** X9: [addAggregators] only appends, only functions that the names resolve
    to, and only to the columns given: the list of every column keeps
    its items in place, and a column that is not among [cols] is left as
    it was. *)
Theorem addAggregators_only_appends (cols : list Col)
    (aggrnames : list string) store c :
  (∃ added,
      default [] (addAggregators aggregators cols aggrnames store !! c)
      = default [] (store !! c) ++ added
      ∧ Forall (λ x, ∃ a aggrname,
                  x = Func a ∧ aggrname ∈ aggrnames
                  ∧ Some a ∈ resolve aggregators aggrname) added)
  ∧ (c ∉ cols →
     addAggregators aggregators cols aggrnames store !! c = store !! c).
Proof.
  rewrite addAggregators_loop_steps.
  set (steps := loop_steps aggregators cols aggrnames).
  set (P := λ x : regval, ∃ a aggrname,
              x = Func a ∧ aggrname ∈ aggrnames
              ∧ Some a ∈ resolve aggregators aggrname).
  split.
  - apply (fold_left_related
             (λ s s' : gmap Col (list regval),
                ∃ added, default [] (s' !! c) = default [] (s !! c) ++ added
                         ∧ Forall P added)).
    + intros s. exists []. by rewrite app_nil_r.
    + intros s1 s2 s3 (added1 & -> & H1) (added2 & -> & H2).
      exists (added1 ++ added2). rewrite app_assoc. split; [done|].
      by apply Forall_app.
    + intros s [aggr c0] Hstep. simpl. rewrite attach_one_appends.
      eexists. split; [done|].
      apply elem_of_loop_steps in Hstep as (_ & aggrname & Hname & Haggr).
      case_decide; [|done]. destruct aggr as [a|]; [|done].
      destruct (aggr_in a _); [done|].
      apply Forall_singleton. by exists a, aggrname.
  - intros Hc.
    apply (fold_left_related
             (λ s s' : gmap Col (list regval), s' !! c = s !! c)).
    + done.
    + intros s1 s2 s3 H12 H23. congruence.
    + intros s [aggr c0] Hstep. simpl. rewrite attach_one_lookup.
      apply elem_of_loop_steps in Hstep as (Hc0 & _).
      case_decide; [by subst|done].
Qed.

(** X10: After [addAggregators], every column given holds every function that
    the names resolve to. *)
Theorem addAggregators_attaches_all (cols : list Col)
    (aggrnames : list string) store (aggrname : string) a c :
  aggrname ∈ aggrnames →
  (aggregators !! aggrname = Some (Func a)
   ∨ ∃ l, aggregators !! aggrname = Some (FuncList l) ∧ a ∈ l) →
  c ∈ cols →
  ∃ attached b,
    addAggregators aggregators cols aggrnames store !! c = Some attached
    ∧ Func b ∈ attached ∧ aggr_ident b = aggr_ident a.
Proof.
  intros Hname Ha%elem_of_resolve Hc. rewrite addAggregators_loop_steps.
  destruct (fold_left_established
              (λ store step, attach_one step.1 store step.2) settled
              (λ s x y, attach_one_stable s x y.1 y.2)
              (λ s x, match x with (aggr, c) => attach_one_established s aggr c end)
              (loop_steps aggregators cols aggrnames) store (Some a, c))
    as (attached & Hattached & Hin).
  { apply elem_of_loop_steps. eauto. }
  simpl in *. specialize (Hin a eq_refl).
  apply aggr_in_true in Hin as (b & Hb & Hid). by exists attached, b.
Qed.

(** X11: [addAggregators] never makes a column hold a function twice. *)
Theorem addAggregators_keeps_functions_distinct (cols : list Col)
    (aggrnames : list string) store c :
  NoDup (idents (default [] (store !! c))) →
  NoDup (idents (default []
                   (addAggregators aggregators cols aggrnames store !! c))).
Proof.
  rewrite addAggregators_loop_steps.
  apply (fold_left_related
           (λ s s' : gmap Col (list regval),
              NoDup (idents (default [] (s !! c))) →
              NoDup (idents (default [] (s' !! c))))).
  - by intros s.
  - intros s1 s2 s3 H12 H23 Hnd. by apply H23, H12.
  - intros s [aggr c0] _ Hnd. simpl. rewrite attach_one_appends.
    case_decide; [|by rewrite app_nil_r]. destruct aggr as [a|];
      [|by rewrite app_nil_r].
    destruct (aggr_in a _) eqn:Hin; [by rewrite app_nil_r|].
    rewrite idents_app. simpl. apply NoDup_app. split_and!; [done| |].
    + intros i Hi ->%list_elem_of_singleton.
      apply aggr_in_idents in Hi. congruence.
    + apply NoDup_singleton.
Qed.

End BindingMore.

(** ** What [split] keeps *)

Lemma join_empty_cons (x : string) (l : list string) :
  join "" (x :: l) = x +:+ join "" l.
Proof.
  destruct l as [|y l]; simpl.
  - by rewrite string_app_nil_r.
  - by rewrite string_app_nil_l.
Qed.

Lemma string_forallb_app (p : ascii → bool) (s1 s2 : string) :
  string_forallb p (s1 +:+ s2) = string_forallb p s1 && string_forallb p s2.
Proof.
  induction s1 as [|c s1 IH]; [done|].
  rewrite string_app_cons. simpl. rewrite IH. by rewrite andb_assoc.
Qed.

Lemma split_go_keeps (word : option string) (s : string) :
  match word with
  | Some w => w ≠ "" ∧ string_forallb (λ c, negb (is_space c)) w = true
  | None => True
  end →
  Forall (λ w, w ≠ "" ∧ string_forallb (λ c, negb (is_space c)) w = true)
         (split_go word s)
  ∧ join "" (split_go word s)
    = default "" word +:+ string_filter (λ c, negb (is_space c)) s.
Proof.
  revert word. induction s as [|c s IH]; intros word Hword.
  - destruct word as [w|]; cbn [split_go string_filter from_option id].
    + split; [by constructor|]. cbn [join]. by rewrite string_app_nil_r.
    + split; [constructor|done].
  - cbn [split_go string_filter]. destruct (is_space c) eqn:Hc; cbn [negb].
    + destruct (IH None I) as [Hall Hjoin]. destruct word as [w|].
      * split; [by constructor|].
        rewrite join_empty_cons, Hjoin. cbn [from_option id].
        by rewrite string_app_nil_l.
      * done.
    + destruct (IH (Some (default "" word +:+ String c ""))) as [Hall Hjoin].
      { split.
        - destruct word as [[|c' w]|]; cbn [from_option id];
            by rewrite ?string_app_cons, ?string_app_nil_l.
        - rewrite string_forallb_app. apply andb_true_iff. split.
          + destruct word as [w|]; [by destruct Hword | done].
          + simpl. by rewrite Hc. }
      split; [done|]. rewrite Hjoin. cbn [from_option id].
      by rewrite string_app_assoc, string_app_cons, string_app_nil_l.
Qed.

Lemma split_keeps (s : string) :
  Forall (λ w, w ≠ "" ∧ string_forallb (λ c, negb (is_space c)) w = true)
         (split s)
  ∧ join "" (split s) = string_filter (λ c, negb (is_space c)) s.
Proof.
  destruct (split_go_keeps None s I) as [Hall Hjoin]. split; [done|].
  unfold split. rewrite Hjoin. cbn [from_option]. by rewrite string_app_nil_l.
Qed.

(** X12: The words of [split] are not empty and hold no white space, and put
    end to end they are the text without its white space: [split] drops
    white space and nothing else. *)
Theorem split_drops_white_space_only (s : string) :
  Forall (λ w, w ≠ "" ∧ string_forallb (λ c, negb (is_space c)) w = true)
         (split s)
  ∧ join "" (split s) = string_filter (λ c, negb (is_space c)) s.
Proof. apply split_keeps. Qed.

Lemma string_filter_blank (s : string) :
  string_forallb is_space s = true →
  string_filter (λ c, negb (is_space c)) s = "".
Proof.
  induction s as [|c s IH]; [done|]. simpl.
  intros [-> Hs]%andb_true_iff. simpl. by apply IH.
Qed.

Lemma split_blank (s : string) : string_forallb is_space s = true → split s = [].
Proof.
  intros Hs. destruct (split_keeps s) as [Hall Hjoin].
  rewrite (string_filter_blank s Hs) in Hjoin.
  destruct (split s) as [|w l]; [done|].
  inversion Hall as [|? ? [Hw _] _]; subst.
  rewrite join_empty_cons in Hjoin. by destruct w.
Qed.

(** ** The aggregators cell: setter, then getter *)

Lemma mapM_Raise_only {A B} (f : A → result B) (l : list A) (e : exn) :
  Forall (λ x, is_Ok (f x) = true ∨ f x = Raise e) l →
  Exists (λ x, f x = Raise e) l →
  mapM f l = Raise e.
Proof.
  induction 1 as [|x l Hx Hl IH]; intros Hex; [by inversion Hex|]. simpl.
  destruct (f x) as [y|e'] eqn:Hfx; simpl.
  - inversion Hex as [? ? Hbad|? ? Hrest]; subst; [congruence|].
    by rewrite (IH Hrest).
  - destruct Hx as [Hx|Hx]; [done|congruence].
Qed.

Section CellFacts.
Variable aggregators : gmap string regval.
Context {Col : Type} `{Countable Col}.
Implicit Types (store : gmap Col (list regval)) (c row : Col).

(** X13: A blank value, or no value, empties the list of the column, whatever
    the registry holds; the cell then reads as the empty string. *)
Theorem setter_blank_clears store row (val : option string) :
  match val with
  | Some text => string_forallb is_space text = true
  | None => True
  end →
  setter aggregators store row val = Ok (<[row := []]> store)
  ∧ getter (<[row := []]> store) row = Ok "".
Proof.
  intros Hval. unfold setter, getter. rewrite lookup_insert_eq. split; [|done].
  destruct val as [text|]; simpl; [|done]. by rewrite (split_blank text Hval).
Qed.

(** X14: When every word of the value is the name under which the registry
    holds a function of that name, the setter succeeds, changes no other
    column, and the cell then reads as the words joined by single spaces. *)
Theorem setter_then_getter store row (text : string) :
  Forall (λ k, ∃ a, aggregators !! k = Some (Func a) ∧ aggr_name a = k)
         (split text) →
  ∃ store', setter aggregators store row (Some text) = Ok store'
            ∧ getter store' row = Ok (join " " (split text))
            ∧ ∀ row', row' ≠ row → store' !! row' = store !! row'.
Proof.
  intros Hall. unfold setter, getter. simpl.
  assert (∃ attached,
            Forall2 (λ k x, lookup_aggregator aggregators k = Ok x)
                    (split text) attached
            ∧ Forall2 (λ x k, __name__ x = Ok k) attached (split text))
    as (attached & Hlook & Hname).
  { induction Hall as [|k ks (a & Ha & Hk) _ (attached & Hl & Hn)].
    - exists []. split; constructor.
    - exists (Func a :: attached). split; constructor; try done.
      + unfold lookup_aggregator. by rewrite Ha.
      + simpl. by rewrite Hk. }
  exists (<[row := attached]> store). rewrite (mapM_Ok _ _ _ Hlook). simpl.
  split_and!; [done| |].
  - rewrite lookup_insert_eq. simpl. by rewrite (mapM_Ok _ _ _ Hname).
  - intros row' Hne. by rewrite lookup_insert_ne.
Qed.

(** X15: A value whose words are all keys of the registry, one of them the key
    of a family (a list of functions), is accepted by the setter, and the
    getter then raises [AttributeError] on that column. *)
Theorem setter_family_breaks_getter store row (text : string) :
  Forall (λ k, is_Some (aggregators !! k)) (split text) →
  Exists (λ k, ∃ l, aggregators !! k = Some (FuncList l)) (split text) →
  ∃ store', setter aggregators store row (Some text) = Ok store'
            ∧ getter store' row = Raise AttributeError.
Proof.
  intros Hall Hex. unfold setter, getter. simpl.
  assert (∃ attached,
            Forall2 (λ k x, lookup_aggregator aggregators k = Ok x)
                    (split text) attached
            ∧ Exists (λ x, __name__ x = Raise AttributeError) attached)
    as (attached & Hlook & Hfam).
  { induction Hall as [|k ks [x Hx] Hks IH].
    - by inversion Hex.
    - assert (lookup_aggregator aggregators k = Ok x) as Hk.
      { unfold lookup_aggregator. by rewrite Hx. }
      inversion Hex as [? ? (l & Hl)|? ? Hrest]; subst.
      + assert (∃ attached,
                  Forall2 (λ k x, lookup_aggregator aggregators k = Ok x)
                          ks attached) as [attached Hatt].
        { clear IH Hex. induction Hks as [|k' ks' [x' Hx'] _ [att Hatt]].
          - exists []. constructor.
          - exists (x' :: att). constructor; [|done].
            unfold lookup_aggregator. by rewrite Hx'. }
        exists (x :: attached). split; [by constructor|].
        left. rewrite Hx in Hl. by injection Hl as ->.
      + destruct (IH Hrest) as (attached & Hatt & Hfam).
        exists (x :: attached). split; [by constructor|]. by right. }
  exists (<[row := attached]> store). rewrite (mapM_Ok _ _ _ Hlook). simpl.
  split; [done|]. rewrite lookup_insert_eq. simpl.
  rewrite (mapM_Raise_only __name__ attached AttributeError); [done| |done].
  apply Forall_forall. intros [a|l] _; [by left | by right].
Qed.

End CellFacts.

(** ** [aggname] *)

Lemma underscore_split (s1 s2 t1 t2 : string) :
  string_forallb (λ c, negb (bool_decide (c = "_"%char))) s1 = true →
  string_forallb (λ c, negb (bool_decide (c = "_"%char))) s2 = true →
  s1 +:+ "_" +:+ t1 = s2 +:+ "_" +:+ t2 → s1 = s2 ∧ t1 = t2.
Proof.
  revert s2. induction s1 as [|c1 s1 IH]; intros [|c2 s2] H1 H2 Heq.
  - rewrite !string_app_nil_l, !string_app_cons, !string_app_nil_l in Heq.
    by injection Heq as ->.
  - rewrite string_app_nil_l, !string_app_cons, string_app_nil_l in Heq.
    injection Heq as <- _. by simpl in H2.
  - rewrite string_app_nil_l, !string_app_cons, string_app_nil_l in Heq.
    injection Heq as -> _. by simpl in H1.
  - rewrite !(string_app_cons _ _ ("_" +:+ _)) in Heq. injection Heq as -> Heq.
    simpl in H1, H2. apply andb_true_iff in H1 as [_ H1].
    apply andb_true_iff in H2 as [_ H2].
    destruct (IH s2 H1 H2 Heq) as [-> ->]. done.
Qed.

(** X16: Between columns whose names hold no underscore, [aggname] is told
    apart by the column and by the aggregator: equal names come from the
    same column name and the same aggregator name. *)
Theorem aggname_unambiguous {Row V Key} (col col' : Column Row V Key)
    (agg agg' : aggr) :
  string_forallb (λ c, negb (bool_decide (c = "_"%char))) (name col) = true →
  string_forallb (λ c, negb (bool_decide (c = "_"%char))) (name col') = true →
  aggname col agg = aggname col' agg' →
  name col = name col' ∧ aggr_name agg = aggr_name agg'.
Proof. unfold aggname. apply underscore_split. Qed.

(** ** Quantile families and percentile aggregators *)

Lemma quantiles_of_cuts (q : Z) (cuts : list Z) :
  quantile_cuts q = Ok cuts → quantiles q = Ok (percentile <$> cuts).
Proof.
  unfold quantile_cuts, quantiles. generalize (seqZ 1 (q - 1)). intros l.
  revert cuts. induction l as [|i l IH]; intros cuts; simpl.
  - by intros [= <-].
  - destruct (truediv (100 * i) q) as [x|e]; [|done]. simpl.
    destruct (py_round x) as [pct|e]; [|done]. simpl.
    destruct (mapM _ l) as [cuts'|e]; [|done]. simpl.
    intros [= <-]. by rewrite (IH cuts' eq_refl).
Qed.

Lemma increasing_between_spec (lo hi : Z) (l : list Z) :
  increasing_between lo hi l = true →
  StronglySorted Z.lt l ∧ Forall (λ x, (lo < x < hi)%Z) l.
Proof.
  revert lo. induction l as [|x l IH]; intros lo; simpl.
  - intros _. split; constructor.
  - intros [[Hlo Hhi]%andb_true_iff Hl]%andb_true_iff.
    apply Z.ltb_lt in Hlo, Hhi. destruct (IH x Hl) as [Hs Hall]. split.
    + constructor; [done|]. eapply Forall_impl; [done|]. simpl. lia.
    + constructor; [lia|]. eapply Forall_impl; [done|]. simpl. lia.
Qed.

Lemma quantile_cuts_checked : forallb quantile_cuts_ok (seqZ 1 100) = true.
Proof. vm_compute. reflexivity. Qed.

Lemma percent_checked : forallb percent_ok (seqZ 0 101) = true.
Proof. vm_compute. reflexivity. Qed.

(** X17: [quantiles(q)] for [q] below 2 (0 and the negative integers
    included): the family is empty, and nothing is divided. *)
Theorem quantiles_below_two (q : Z) :
  (q ≤ 1)%Z → quantiles q = Ok [].
Proof.
  intros Hq. unfold quantiles, seqZ.
  replace (Z.to_nat (q - 1)) with 0%nat by lia. done.
Qed.

(** X18: [quantiles(q)] for [q] from 1 to 100: [q - 1] percentile aggregators,
    whose percentages increase strictly and lie strictly between 0 and
    100. *)
Theorem quantiles_family (q : Z) :
  (1 ≤ q ≤ 100)%Z →
  ∃ cuts, quantiles q = Ok (percentile <$> cuts)
          ∧ Z.of_nat (length cuts) = (q - 1)%Z
          ∧ StronglySorted Z.lt cuts
          ∧ Forall (λ pct, (0 < pct < 100)%Z) cuts.
Proof.
  intros Hq. pose proof quantile_cuts_checked as Hall.
  rewrite forallb_forall in Hall. specialize (Hall q).
  unfold quantile_cuts_ok in Hall.
  assert (In q (seqZ 1 100)) as Hin
    by (apply list_elem_of_In, elem_of_seqZ; lia).
  specialize (Hall Hin).
  destruct (quantile_cuts q) as [cuts|e] eqn:Hcuts; [|done].
  apply andb_true_iff in Hall as [Hlen Hinc].
  apply bool_decide_eq_true in Hlen.
  apply increasing_between_spec in Hinc as [Hs Hb].
  exists cuts. by rewrite (quantiles_of_cuts q cuts Hcuts).
Qed.

(** The product of the float 0 and a number is a zero. *)
Lemma zero_mul_number (percent : float) :
  is_number percent = true →
  ∃ s, Prim2SF (0 * percent)%float = S754_zero s.
Proof.
  unfold is_number. intros [Hnan Hinf]%andb_true_iff.
  apply negb_true_iff in Hnan, Hinf.
  rewrite mul_spec. change (Prim2SF 0%float) with (S754_zero false).
  unfold Prim2SF. rewrite Hnan. destruct (is_zero percent); [by eexists|].
  rewrite Hinf. destruct (Z.frexp percent) as [r e].
  destruct (shr_fexp _ _ _ _ _) as [m e'].
  destruct (shr_m m); by eexists.
Qed.

Lemma percentile_single (v : num) (percent : float) :
  is_number percent = true → _percentile [v] percent id = Ok (Some v).
Proof.
  intros Hp. destruct (zero_mul_number percent Hp) as [s Hzero].
  unfold _percentile, int_mul_float. simpl length.
  change (float_of_int (Z.of_nat 1 - 1)) with (Ok 0%float). simpl mbind.
  unfold math_floor, math_ceil, int_of_float. rewrite Hzero. done.
Qed.

Section PercentileFacts.
Context {Row Key : Type}.
Variable isNullFunc : Z → bool.
Implicit Types (col : Column Row Z Key) (rows : list Row).

(** X19: A percentile aggregator (for a percentage from 0 to 100) returns
    [None] over no value, and over a single value that value, whatever
    the percentage. *)
Theorem percentile_of_none_or_one (pct : Z) col rows :
  (0 ≤ pct ≤ 100)%Z →
  (getValues isNullFunc col rows = [] →
   percentile_func isNullFunc pct col rows = Ok None)
  ∧ (∀ v, getValues isNullFunc col rows = [v] →
          percentile_func isNullFunc pct col rows = Ok (Some (PyInt v))).
Proof.
  intros Hpct. pose proof percent_checked as Hall.
  rewrite forallb_forall in Hall. specialize (Hall pct).
  unfold percent_ok in Hall. unfold percentile_func.
  assert (In pct (seqZ 0 101)) as Hin
    by (apply list_elem_of_In, elem_of_seqZ; lia).
  specialize (Hall Hin).
  destruct (truediv pct 100) as [percent|e]; [|done].
  split.
  - by intros ->.
  - intros v ->. simpl. by apply percentile_single.
Qed.

End PercentileFacts.

(** ** The shell column: the words of the command *)

Lemma substitute_plain (context : string → result string) (w : string) :
  String.prefix "$" w = false → substitute context w = Ok w.
Proof.
  destruct w as [|c w]; [done|].
  destruct c as [[] [] [] [] [] [] [] []]; try done.
  simpl. by destruct w.
Qed.

Lemma mapM_substitute_plain (context : string → result string) words :
  Forall (λ w, String.prefix "$" w = false) words →
  mapM (substitute context) words = Ok words.
Proof.
  induction 1 as [|w words Hw _ IH]; [done|].
  simpl. rewrite (substitute_plain context w Hw). simpl. by rewrite IH.
Qed.


Lemma mapM_Forall2_Ok {A B} (f : A → result B) (l : list A) (k : list B) :
  Forall2 (λ x y, f x = Ok y) l k → mapM f l = Ok k.
Proof.
  induction 1 as [|x y l k Hx _ IH]; [done|].
  simpl. rewrite Hx. simpl. by rewrite IH.
Qed.

Section ShellFacts.
Variable shlex_split : string → result (list string).
Variable context : string → result string.
Variable communicate : list string → result (string * string).

(** X20: A command none of whose words starts with [$] is run as
    [shlex.split] gives it, whatever the row.  What the process returns
    is the value; when starting or running the process raises an
    exception, the handler raises [NameError] ([vd] is not bound in
    shell.py): the method does not return [None]. *)
Theorem calcValue_plain_command (expr : string) (words : list string) :
  shlex_split expr = Ok words →
  Forall (λ w, String.prefix "$" w = false) words →
  calcValue shlex_split context communicate expr
  = match communicate words with
    | Ok out_err => Ok (Some out_err)
    | Raise _ => Raise (NameError "vd")
    end.
Proof.
  intros Hsplit Hplain. unfold calcValue, run_command. rewrite Hsplit.
  simpl. rewrite (mapM_substitute_plain context words Hplain). simpl.
  by destruct (communicate words).
Qed.


(** X27: When every word of the command is substituted without error,
    the process gets as many arguments as the command has words, in the
    same order: a word that starts with [$] gives the value of the column
    it names, any other word gives itself.  What the process returns is
    the value; when the process raises an exception, the handler raises
    [NameError] ([vd] is not bound in shell.py). *)
Theorem calcValue_arguments (expr : string) (words args : list string) :
  shlex_split expr = Ok words →
  Forall2 (λ w arg,
             match w with
             | String "$" colname => context colname = Ok arg
             | _ => arg = w
             end) words args →
  calcValue shlex_split context communicate expr
  = match communicate args with
    | Ok out_err => Ok (Some out_err)
    | Raise _ => Raise (NameError "vd")
    end.
Proof.
  intros Hsplit Hargs. unfold calcValue, run_command. rewrite Hsplit.
  simpl. rewrite (mapM_Forall2_Ok (substitute context) words args).
  - simpl. by destruct (communicate args).
  - eapply Forall2_impl; [exact Hargs|]. intros w arg Hw.
    unfold substitute. repeat case_match; by subst.
Qed.

End ShellFacts.

(** ** The directory sheets *)

Lemma string_drop_all (n : nat) (s : string) :
  (String.length s ≤ n)%nat → string_drop n s = "".
Proof.
  revert n. induction s as [|c s IH]; intros [|n]; simpl; try done; try lia.
  intros Hn. apply IH. lia.
Qed.

Lemma string_drop_app (s t : string) :
  string_drop (String.length s) (s +:+ t) = t.
Proof. induction s as [|c s IH]; [done|]. by rewrite string_app_cons. Qed.

Lemma string_drop_app_cons (s : string) (c : ascii) (t : string) :
  string_drop (String.length s + 1) (s +:+ String c t) = t.
Proof.
  induction s as [|a s IH]; [done|]. by rewrite string_app_cons.
Qed.

Lemma rstrip_cut (s : string) :
  ∃ t, s = rstrip s +:+ t ∧ string_forallb is_space t = true.
Proof.
  induction s as [|c s (t & Hs & Ht)].
  - by exists "".
  - simpl. destruct (rstrip s) as [|c' r] eqn:Hr.
    + rewrite string_app_nil_l in Hs. subst t.
      destruct (is_space c) eqn:Hc.
      * exists (String c s). split; [done|]. simpl. by rewrite Hc, Ht.
      * by exists s.
    + exists t. split; [|done]. rewrite string_app_cons. by rewrite <-Hs.
Qed.

Lemma rstrip_last (s r : string) (c : ascii) :
  rstrip s = r +:+ String c "" → is_space c = false.
Proof.
  revert r. induction s as [|a s IH]; intros r; simpl.
  - by destruct r.
  - destruct (rstrip s) as [|c' r'] eqn:Hr.
    + destruct (is_space a) eqn:Ha.
      * by destruct r.
      * destruct r as [|b r].
        -- rewrite string_app_nil_l. by intros [= ->].
        -- rewrite string_app_cons. intros [= _ Hnil]. by destruct r.
    + destruct r as [|b r].
      * rewrite string_app_nil_l. by intros [= _ ?].
      * rewrite string_app_cons. intros [= _ Heq]. by apply (IH r).
Qed.

Lemma empty_not_dot : "" ∉ ["."; ".."].
Proof. rewrite !elem_of_cons, elem_of_nil. by intros [?|[?|[]]]. Qed.

Section WalkFacts.
Context {Path : Type}.
Variable mkPath : string → Path.
Variable joinpath : Path → string → Path.

Local Abbreviation walk_entries := (walk_entries mkPath joinpath).

Lemma walk_entries_kept basepath folder subdirs files entries :
  string_drop (String.length basepath + 1) folder ∉ ["."; ".."] →
  walk_entries basepath ((folder, subdirs, files) :: entries)
  = mkPath folder :: (joinpath (mkPath folder) <$> files)
    ++ walk_entries basepath entries.
Proof. intros Hk. simpl. by rewrite bool_decide_eq_false_2. Qed.

(** X22: The test that drops a folder of the walk looks at the folder's name
    from character [len(basepath) + 1] on.  A folder whose name is no
    longer than that is kept; a folder [basepath + c + rest] is dropped,
    with its files, exactly when [rest] is [.] or [..], whatever the
    character [c] is. *)
Theorem walk_skip_test basepath subdirs files entries :
  (∀ folder, (String.length folder ≤ String.length basepath + 1)%nat →
     walk_entries basepath ((folder, subdirs, files) :: entries)
     = mkPath folder :: (joinpath (mkPath folder) <$> files)
       ++ walk_entries basepath entries)
  ∧ (∀ c rest, let folder := basepath +:+ String c rest in
     walk_entries basepath ((folder, subdirs, files) :: entries)
     = if bool_decide (rest = "." ∨ rest = "..")
       then walk_entries basepath entries
       else mkPath folder :: (joinpath (mkPath folder) <$> files)
            ++ walk_entries basepath entries).
Proof.
  split.
  - intros folder Hlen. apply walk_entries_kept.
    rewrite string_drop_all by done. apply empty_not_dot.
  - intros c rest folder. unfold folder. cbn [walk_entries].
    rewrite string_drop_app_cons.
    rewrite (bool_decide_ext (rest ∈ ["."; ".."]) (rest = "." ∨ rest = ".."));
      [done|].
    rewrite !elem_of_cons, elem_of_nil. tauto.
Qed.

End WalkFacts.

Section DirSheetFacts.
Context {Path : Type}.
Variable mkPath : string → Path.
Variable joinpath : Path → string → Path.
Variable path_str : Path → string.
Variable path_name : Path → string.
Variable os_walk : string → list (string * list string * list string).
Variable os_listdir : string → list string.

Local Abbreviation walk_entries := (walk_entries mkPath joinpath).
Local Abbreviation _walkfiles :=
  (_walkfiles mkPath joinpath path_str os_walk).
Local Abbreviation _listfiles := (_listfiles joinpath path_str os_listdir).
Local Abbreviation iterload :=
  (iterload mkPath joinpath path_str path_name os_walk os_listdir).

Lemma elem_of_iterload_loop hidden_files (paths : list Path) p :
  p ∈ iterload_loop path_name hidden_files paths
  ↔ p ∈ paths ∧ hidden_files && String.prefix "." (path_name p) = false.
Proof.
  induction paths as [|x paths IH]; simpl.
  - rewrite elem_of_nil. tauto.
  - destruct (hidden_files && String.prefix "." (path_name x)) eqn:Hx.
    + rewrite IH, elem_of_cons. split; [tauto|].
      intros [[->|?] ?]; [congruence|done].
    + rewrite !elem_of_cons, IH. split; [|tauto].
      intros [->|[? ?]]; tauto.
Qed.

Lemma iterload_loop_sublist hidden_files (paths : list Path) :
  sublist (iterload_loop path_name hidden_files paths) paths.
Proof.
  induction paths as [|x paths IH]; simpl; [done|].
  destruct (hidden_files && _); by constructor.
Qed.

Lemma iterload_loop_all (paths : list Path) :
  iterload_loop path_name false paths = paths.
Proof. induction paths as [|x paths IH]; simpl; [done|]. by rewrite IH. Qed.

(** X23: The rows of a directory sheet are the paths of the listing (the walk
    when [dir_recurse] is set), in the order of the listing.  With
    [dir_hidden] unset all of them are rows; with [dir_hidden] set the
    paths whose name starts with a dot are left out, and only those. *)
Theorem iterload_rows (dir_recurse dir_hidden : bool) (source : Path) :
  let listing :=
    if dir_recurse then _walkfiles source else _listfiles source in
  sublist (iterload dir_recurse dir_hidden source) listing
  ∧ (∀ p, p ∈ iterload dir_recurse dir_hidden source
          ↔ p ∈ listing
            ∧ (dir_hidden = true → String.prefix "." (path_name p) = false))
  ∧ (dir_hidden = false → iterload dir_recurse dir_hidden source = listing).
Proof.
  assert (iterload dir_recurse dir_hidden source
          = iterload_loop path_name dir_hidden
              (if dir_recurse then _walkfiles source else _listfiles source))
    as -> by by destruct dir_recurse.
  simpl. split_and!.
  - apply iterload_loop_sublist.
  - intros p. rewrite elem_of_iterload_loop.
    destruct dir_hidden; simpl; intuition congruence.
  - intros ->. apply iterload_loop_all.
Qed.

(** X24: When [os.walk] reports the directory it was given first, the first
    row of a recursive directory sheet is the source directory itself,
    followed by its files in the order reported; the names of its
    subdirectories give no rows of their own. *)
Theorem walkfiles_top_first (source : Path) subdirs files rest :
  os_walk (path_str source) = (path_str source, subdirs, files) :: rest →
  iterload true false source
  = mkPath (path_str source)
    :: (joinpath (mkPath (path_str source)) <$> files)
    ++ walk_entries (path_str source) rest.
Proof.
  intros Hwalk. unfold iterload, _walkfiles.
  rewrite iterload_loop_all, Hwalk. apply walk_entries_kept.
  rewrite string_drop_all by lia. apply empty_not_dot.
Qed.

(** X25: A file-list sheet has one row per line of its source, in order, blank
    lines included: the line without the white space at its end.  What is
    cut is white space only, and what is left does not end in white
    space. *)
Theorem filelist_rows (lines : list string) :
  length (filelist_iterload mkPath lines) = length lines
  ∧ ∀ i line, lines !! i = Some line →
      filelist_iterload mkPath lines !! i = Some (mkPath (rstrip line))
      ∧ (∃ t, line = rstrip line +:+ t ∧ string_forallb is_space t = true)
      ∧ (∀ r c, rstrip line = r +:+ String c "" → is_space c = false).
Proof.
  split.
  - induction lines as [|fn lines IH]; simpl; [done|]. by rewrite IH.
  - intros i line Hi. split_and!.
    + revert i Hi. induction lines as [|fn lines IH]; intros [|i]; simpl;
        try done.
      * by intros [= ->].
      * apply IH.
    + apply rstrip_cut.
    + apply rstrip_last.
Qed.

End DirSheetFacts.

(** ** The registry of built-in aggregators *)

Lemma NoDup_omap_eq {A B} (g : A → option B) (l : list A) x y i :
  NoDup (omap g l) → x ∈ l → y ∈ l → g x = Some i → g y = Some i → x = y.
Proof.
  induction l as [|z l IH]; simpl; [by intros _ ?%elem_of_nil|].
  intros Hnd Hx Hy Hgx Hgy.
  apply elem_of_cons in Hx as [->|Hx]; apply elem_of_cons in Hy as [->|Hy].
  - done.
  - rewrite Hgx in Hnd. apply NoDup_cons in Hnd as [Hni _].
    destruct Hni. apply list_elem_of_omap. by exists y.
  - rewrite Hgy in Hnd. apply NoDup_cons in Hnd as [Hni _].
    destruct Hni. apply list_elem_of_omap. by exists x.
  - destruct (g z); [apply NoDup_cons in Hnd as [_ Hnd]|]; by apply IH.
Qed.

Lemma builtin_names_checked : names_are_keys builtin_aggregators = true.
Proof. vm_compute. reflexivity. Qed.

Lemma builtin_objects_checked :
  objects_are_distinct builtin_aggregators = true.
Proof. vm_compute. reflexivity. Qed.

(** X26: The registry that the module builds when it is imported: each single
    function is registered under its own [__name__]; the members of the
    quantile families carry names ([p25], ...) that are no keys of the
    registry; and no function object is registered under two keys ([avg]
    and [mean] are two objects). *)
Theorem registry_names :
  ∃ reg, register_all = Ok reg
    ∧ (∀ k a, reg !! k = Some (Func a) → aggr_name a = k)
    ∧ (∀ k l a, reg !! k = Some (FuncList l) → a ∈ l →
                reg !! aggr_name a = None)
    ∧ (∀ k k' a a', reg !! k = Some (Func a) → reg !! k' = Some (Func a') →
                    aggr_ident a = aggr_ident a' → k = k').
Proof.
  exists builtin_aggregators. split; [apply register_all_builtin|].
  pose proof builtin_names_checked as Hnames.
  unfold names_are_keys in Hnames. rewrite forallb_forall in Hnames.
  split_and!.
  - intros k a Hk. apply elem_of_map_to_list, list_elem_of_In in Hk.
    apply Hnames in Hk. simpl in Hk. by apply bool_decide_eq_true in Hk.
  - intros k l a Hk Ha. apply elem_of_map_to_list, list_elem_of_In in Hk.
    apply Hnames in Hk. simpl in Hk. rewrite forallb_forall in Hk.
    apply list_elem_of_In in Ha. apply Hk in Ha.
    by apply bool_decide_eq_true in Ha.
  - intros k k' a a' Hk Hk' Hid.
    pose proof builtin_objects_checked as Hnd.
    apply bool_decide_eq_true in Hnd.
    apply elem_of_map_to_list in Hk, Hk'.
    assert ((k, Func a) = (k', Func a')) as [= -> _]; [|done].
    eapply (NoDup_omap_eq single_ident); [exact Hnd|done|done|done|].
    unfold single_ident. simpl. by rewrite Hid.
Qed.

(** ** The properties above on the small sheet *)

(** Rows without a value ([0] is null, the empty row raises). *)
Lemma aggregators_of_no_value_witness :
  aggregator zero_is_null min_func tt first_cell [[]; [0]]%Z = ReturnedNone
  ∧ aggregator zero_is_null max_func tt first_cell [[]; [0]]%Z = ReturnedNone
  ∧ aggregator zero_is_null median tt first_cell [[]; [0]]%Z = ReturnedNone
  ∧ aggregator zero_is_null mean tt first_cell [[]; [0]]%Z = Returned None
  ∧ aggregator zero_is_null sum_func tt first_cell [[]; [0]]%Z = Returned 0%Z
  ∧ count zero_is_null first_cell [[]; [0]]%Z = Returned 0%Z
  ∧ list_aggr zero_is_null first_cell [[]; [0]]%Z = Returned []
  ∧ aggregator zero_is_null distinct_func tt first_cell [[]; [0]]%Z
    = Returned ∅
  ∧ keymax list_eqb list_gt zero_is_null first_cell [[]; [0]]%Z
    = Raise ValueError.
Proof.
  apply (aggregators_of_no_value zero_is_null first_cell [[]; [0]]%Z
           list_eqb list_gt).
  reflexivity.
Defined.

Lemma min_is_least_value_witness :
  ∃ m, aggregator zero_is_null min_func tt first_cell [[4]; []; [0]; [7]]%Z
       = Returned m
       ∧ m ∈ getValues zero_is_null first_cell [[4]; []; [0]; [7]]%Z
       ∧ ∀ v, v ∈ getValues zero_is_null first_cell [[4]; []; [0]; [7]]%Z →
              (m ≤ v)%Z.
Proof.
  apply (min_is_least_value zero_is_null first_cell [[4]; []; [0]; [7]]%Z).
  discriminate.
Defined.

Lemma max_is_greatest_value_witness :
  ∃ m, aggregator zero_is_null max_func tt first_cell [[4]; []; [0]; [7]]%Z
       = Returned m
       ∧ m ∈ getValues zero_is_null first_cell [[4]; []; [0]; [7]]%Z
       ∧ ∀ v, v ∈ getValues zero_is_null first_cell [[4]; []; [0]; [7]]%Z →
              (v ≤ m)%Z.
Proof.
  apply (max_is_greatest_value zero_is_null first_cell [[4]; []; [0]; [7]]%Z).
  discriminate.
Defined.

Lemma aggregators_ignore_row_order_witness :
  aggregator never_null min_func tt first_cell [[4]; [7]]%Z
    = aggregator never_null min_func tt first_cell [[7]; [4]]%Z
  ∧ aggregator never_null max_func tt first_cell [[4]; [7]]%Z
    = aggregator never_null max_func tt first_cell [[7]; [4]]%Z
  ∧ aggregator never_null median tt first_cell [[4]; [7]]%Z
    = aggregator never_null median tt first_cell [[7]; [4]]%Z
  ∧ aggregator never_null sum_func tt first_cell [[4]; [7]]%Z
    = aggregator never_null sum_func tt first_cell [[7]; [4]]%Z
  ∧ count never_null first_cell [[4]; [7]]%Z
    = count never_null first_cell [[7]; [4]]%Z
  ∧ aggregator never_null distinct_func tt first_cell [[4]; [7]]%Z
    = aggregator never_null distinct_func tt first_cell [[7]; [4]]%Z.
Proof.
  apply (aggregators_ignore_row_order never_null first_cell
           [[4]; [7]]%Z [[7]; [4]]%Z).
  apply perm_swap.
Defined.

Lemma median_is_middle_value_witness :
  ∃ m, aggregator never_null median tt first_cell [[4]; [9]; [7]; [1]]%Z
       = Returned m
       ∧ m ∈ getValues never_null first_cell [[4]; [9]; [7]; [1]]%Z
       ∧ length (getValues never_null first_cell [[4]; [9]; [7]; [1]]%Z)
         < 2 * length (filter (λ v, (v ≤ m)%Z)
                         (getValues never_null first_cell
                            [[4]; [9]; [7]; [1]]%Z))
       ∧ length (getValues never_null first_cell [[4]; [9]; [7]; [1]]%Z)
         ≤ 2 * length (filter (λ v, (m ≤ v)%Z)
                         (getValues never_null first_cell
                            [[4]; [9]; [7]; [1]]%Z)).
Proof.
  apply (median_is_middle_value never_null first_cell
           [[4]; [9]; [7]; [1]]%Z).
  discriminate.
Defined.

(** Three rows with the values 4, 7 and 5 and the keys 1, 2 and 3. *)
Lemma keymax_row_has_maximum_witness :
  ∃ v r, keymax list_eqb list_gt never_null first_cell
           [[4; 1]; [7; 2]; [5; 3]]%Z = Ok (rowkey first_cell r)
         ∧ (v, r) ∈ getValueRows never_null first_cell
                      [[4; 1]; [7; 2]; [5; 3]]%Z
         ∧ ∀ a, a ∈ getValueRows never_null first_cell
                      [[4; 1]; [7; 2]; [5; 3]]%Z → (a.1 ≤ v)%Z.
Proof.
  apply (proj2 (keymax_row_has_maximum list_eqb list_gt never_null
                  first_cell [[4; 1]; [7; 2]; [5; 3]]%Z)).
  - discriminate.
  - apply (bool_decide_unpack _). vm_compute. exact I.
Defined.

(** [min] added to the column 1, read at the column 2. *)
Lemma addAggregators_only_appends_witness :
  addAggregators builtin_aggregators [1%positive] ["min"] store_min_keymax
    !! 2%positive
  = store_min_keymax !! 2%positive.
Proof.
  apply (proj2 (addAggregators_only_appends builtin_aggregators
                  [1%positive] ["min"] store_min_keymax 2%positive)).
  intros Hin. apply list_elem_of_singleton in Hin. discriminate Hin.
Defined.

(** The family [q4] on a fresh column: [p50] is attached. *)
Lemma addAggregators_attaches_all_witness :
  ∃ attached b,
    addAggregators builtin_aggregators [1%positive] ["q4"] ∅ !! 1%positive
    = Some attached
    ∧ Func b ∈ attached ∧ aggr_ident b = aggr_ident (percentile 50).
Proof.
  apply (addAggregators_attaches_all builtin_aggregators [1%positive]
           ["q4"] ∅ "q4" (percentile 50) 1%positive).
  - apply list_elem_of_here.
  - right. exists (percentile <$> [25; 50; 75]%Z). split.
    + reflexivity.
    + apply list_elem_of_further, list_elem_of_here.
  - apply list_elem_of_here.
Defined.

Lemma addAggregators_keeps_functions_distinct_witness :
  NoDup (idents (default []
                   (addAggregators builtin_aggregators [1%positive]
                      ["q4"; "min"] store_min_keymax !! 1%positive))).
Proof.
  apply (addAggregators_keeps_functions_distinct builtin_aggregators
           [1%positive] ["q4"; "min"] store_min_keymax 1%positive).
  apply (bool_decide_unpack _). vm_compute. exact I.
Defined.

Lemma setter_blank_clears_witness :
  setter builtin_aggregators store_min_keymax 1%positive (Some "  ")
    = Ok (<[1%positive := []]> store_min_keymax)
  ∧ getter (<[1%positive := []]> store_min_keymax) 1%positive = Ok "".
Proof.
  apply (setter_blank_clears builtin_aggregators store_min_keymax
           1%positive (Some "  ")).
  reflexivity.
Defined.

Lemma setter_then_getter_witness :
  ∃ store', setter builtin_aggregators ∅ 1%positive (Some " min  keymax ")
            = Ok store'
            ∧ getter store' 1%positive = Ok (join " " (split " min  keymax "))
            ∧ ∀ row', row' ≠ 1%positive →
                      store' !! row' = (∅ : gmap positive (list regval)) !! row'.
Proof.
  apply (setter_then_getter builtin_aggregators ∅ 1%positive
           " min  keymax ").
  change (split " min  keymax ") with ["min"; "keymax"].
  repeat constructor.
  - exists aggr_min. split; reflexivity.
  - exists aggr_keymax. split; reflexivity.
Defined.

Lemma setter_family_breaks_getter_witness :
  ∃ store', setter builtin_aggregators ∅ 1%positive (Some "min q4")
            = Ok store'
            ∧ getter store' 1%positive = Raise AttributeError.
Proof.
  apply (setter_family_breaks_getter builtin_aggregators ∅ 1%positive
           "min q4").
  - change (split "min q4") with ["min"; "q4"].
    repeat constructor; eexists; reflexivity.
  - change (split "min q4") with ["min"; "q4"].
    apply Exists_cons_tl, Exists_cons_hd.
    exists (percentile <$> [25; 50; 75]%Z). reflexivity.
Defined.

(** Two function objects with the name [min] on one column. *)
Lemma aggname_unambiguous_witness :
  name first_cell = name first_cell
  ∧ aggr_name aggr_min = aggr_name other_min.
Proof.
  apply (aggname_unambiguous first_cell first_cell aggr_min other_min);
    reflexivity.
Defined.

Lemma quantiles_below_two_witness : quantiles 0 = Ok [].
Proof. apply (quantiles_below_two 0). lia. Defined.

Lemma quantiles_family_witness :
  ∃ cuts, quantiles 4 = Ok (percentile <$> cuts)
          ∧ Z.of_nat (length cuts) = (4 - 1)%Z
          ∧ StronglySorted Z.lt cuts
          ∧ Forall (λ pct, (0 < pct < 100)%Z) cuts.
Proof. apply (quantiles_family 4). lia. Defined.

Lemma percentile_of_none_or_one_witness :
  percentile_func zero_is_null 50 first_cell [[]; [0]]%Z = Ok None
  ∧ percentile_func zero_is_null 50 first_cell [[]; [7]; [0]]%Z
    = Ok (Some (PyInt 7)).
Proof.
  split.
  - apply (proj1 (percentile_of_none_or_one zero_is_null 50 first_cell
                    [[]; [0]]%Z ltac:(lia))).
    reflexivity.
  - apply (proj2 (percentile_of_none_or_one zero_is_null 50 first_cell
                    [[]; [7]; [0]]%Z ltac:(lia)) 7%Z).
    reflexivity.
Defined.

Lemma calcValue_plain_command_witness :
  calcValue plain_split one_column echo "ls -l"
  = match echo ["ls"; "-l"] with
    | Ok out_err => Ok (Some out_err)
    | Raise _ => Raise (NameError "vd")
    end.
Proof.
  apply (calcValue_plain_command plain_split one_column echo "ls -l"
           ["ls"; "-l"]).
  - reflexivity.
  - repeat constructor.
Defined.


Lemma iterload_rows_witness :
  iterload id slash id basename walk_example listdir_example
    false false "d"
  = _listfiles slash id listdir_example "d".
Proof.
  apply (proj2 (proj2 (iterload_rows id slash id basename walk_example
                         listdir_example false false "d"))).
  reflexivity.
Defined.

Lemma walk_skip_test_witness :
  walk_entries id slash "d" [("d", ["sub"], ["a"; ".b"])]
  = id "d" :: (slash (id "d") <$> ["a"; ".b"]) ++ walk_entries id slash "d" [].
Proof.
  apply (proj1 (walk_skip_test id slash "d" ["sub"] ["a"; ".b"] []) "d").
  simpl. lia.
Defined.

Lemma walkfiles_top_first_witness :
  iterload id slash id basename walk_example listdir_example
    true false "d"
  = id (id "d")
    :: (slash (id (id "d")) <$> ["a"; ".b"])
    ++ walk_entries id slash (id "d") [(slash "d" "sub", [], ["c"])].
Proof.
  apply (walkfiles_top_first id slash id basename walk_example
           listdir_example "d" ["sub"] ["a"; ".b"]
           [(slash "d" "sub", [], ["c"])]).
  reflexivity.
Defined.

Lemma filelist_rows_witness :
  filelist_iterload id ["a.txt  "; " "] !! 0%nat
    = Some (id (rstrip "a.txt  "))
  ∧ (∃ t, "a.txt  " = rstrip "a.txt  " +:+ t
          ∧ string_forallb is_space t = true)
  ∧ (∀ r c, rstrip "a.txt  " = r +:+ String c "" → is_space c = false).
Proof.
  apply (proj2 (filelist_rows id ["a.txt  "; " "]) 0%nat "a.txt  ").
  reflexivity.
Defined.

Lemma calcValue_arguments_witness :
  calcValue plain_split one_column echo "cat $file x"
  = match echo ["cat"; "a.txt"; "x"] with
    | Ok out_err => Ok (Some out_err)
    | Raise _ => Raise (NameError "vd")
    end.
Proof.
  apply (calcValue_arguments plain_split one_column echo "cat $file x"
           ["cat"; "$file"; "x"] ["cat"; "a.txt"; "x"]).
  - reflexivity.
  - repeat constructor.
Defined.
